(** * A Ritz / Gaussian-quadrature solver for a one-dimensional boundary-value
      problem: shallow embedding of [fem.ipynb] and its properties.

    The notebook computes with Python numbers.  The functions below are
    written once, over a type [T] of numbers with the operations the source
    uses ([Arith]), and are read in two number systems:

    - [Qc], the rationals in lowest terms: every operation is exact and a
      decimal literal denotes the decimal fraction it spells.  This is the
      number system of the specification, whose scalar functions map reals
      to reals; the algebraic properties are stated and proved here.
    - [float], the kernel's IEEE-754 binary64 numbers, which are the numbers
      CPython computes with: every operation rounds to nearest-even and a
      literal denotes the closest binary64 value.  The embedding is checked
      against the outputs recorded in the notebook in this system, bit for
      bit, and the numerical scenario is evaluated in it as well.

    An equation between results is exact in [Qc]; in [float] it holds up to
    rounding, except where a lemma states it for [float], bit for bit.  A
    lemma stated over an arbitrary [T] holds in both. *)

From Stdlib Require Import ZArith QArith Qcanon Qcabs Qabs List Lia Field Permutation.
From Stdlib Require Import FunctionalExtensionality.
From Stdlib Require Import PrimFloat SpecFloat FloatOps FloatAxioms Uint63.
From stdpp Require Import base list option.
Import ListNotations.

Set Warnings "-inexact-float".

(** ** Python numbers *)

(** The arithmetic the notebook uses: number literals, [+ - * /] and [**]
    with an integer exponent.  Python's [int] and [float] are one type here:
    the integers of the notebook ([0], [1], [2], [10], the exponents) are
    exact in both number systems. *)
Class Arith (T : Type) : Type := {
  lit : Q -> T;
  add : T -> T -> T;
  sub : T -> T -> T;
  mul : T -> T -> T;
  div : T -> T -> T;
  pow : T -> Z -> T;
}.

Declare Scope py_scope.
Delimit Scope py_scope with py.
Notation "x + y" := (add x y) : py_scope.
Notation "x - y" := (sub x y) : py_scope.
Notation "x * y" := (mul x y) : py_scope.
Notation "x / y" := (div x y) : py_scope.
Notation "x ** k" := (pow x k) (at level 30, right associativity) : py_scope.

(** *** Exact rationals *)

(** [x ** k]: for a negative exponent Python computes the inverse of the
    positive power (and raises at [x = 0], where the inverse below is [0]);
    the notebook only ever uses exponents [k >= 0]. *)
Definition Qc_pow (x : Qc) (k : Z) : Qc :=
  if (k <? 0)%Z then Qcinv (Qcpower x (Z.to_nat (- k)))
  else Qcpower x (Z.to_nat k).

#[export] Instance Qc_arith : Arith Qc :=
  {| lit := Q2Qc; add := Qcplus; sub := Qcminus; mul := Qcmult;
     div := Qcdiv; pow := Qc_pow |}.

(** *** binary64 *)

Definition float_of_Z (z : Z) : float :=
  match z with
  | Z0 => PrimFloat.zero
  | Zpos p => PrimFloat.of_uint63 (Uint63.of_Z (Zpos p))
  | Zneg p => PrimFloat.opp (PrimFloat.of_uint63 (Uint63.of_Z (Zpos p)))
  end.

(** A literal [n/d] with [n] and [d] below [2^53] (all literals of the
    notebook: at most 15 decimal digits): both are binary64 values, so the
    rounded quotient is the binary64 value closest to the literal, which is
    what Python's parser produces. *)
Definition float_lit (q : Q) : float :=
  PrimFloat.div (float_of_Z (Qnum q)) (float_of_Z (Zpos (Qden q))).

(** [x ** k] for [k > 0]: the exact power of the binary64 value [x], rounded
    once to nearest-even.  CPython leaves the operation to the C library's
    [pow]; that this is the value it returns on the inputs of the notebook
    is part of what [recorded_outputs_reproduced] checks.  On other inputs
    a C library may return a neighbouring binary64 value; no statement
    below about general inputs goes through [**] away from [0]. *)
Definition float_pow_pos (x : float) (k : positive) : float :=
  match Prim2SF x with
  | S754_finite s m e =>
      SF2Prim (binary_normalize prec emax
                 (if s && Z.odd (Zpos k) then Zneg (m ^ k) else Zpos (m ^ k))
                 (e * Zpos k) false)
  | S754_zero s => SF2Prim (S754_zero (s && Z.odd (Zpos k)))
  | S754_infinity s => SF2Prim (S754_infinity (s && Z.odd (Zpos k)))
  | S754_nan => PrimFloat.nan
  end.

Definition float_pow (x : float) (k : Z) : float :=
  match k with
  | Z0 => PrimFloat.one
  | Zpos p => float_pow_pos x p
  | Zneg p => PrimFloat.div PrimFloat.one (float_pow_pos x p)
  end.

#[export] Instance float_arith : Arith float :=
  {| lit := float_lit; add := PrimFloat.add; sub := PrimFloat.sub;
     mul := PrimFloat.mul; div := PrimFloat.div; pow := float_pow |}.

(** The rational a number stands for ([None] for an infinity or a NaN). *)
Class Exact (T : Type) : Type := to_Q : T -> option Q.

#[export] Instance Qc_exact : Exact Qc := fun x => Some (this x).

Definition float_to_Q (x : float) : option Q :=
  match Prim2SF x with
  | S754_zero _ => Some 0%Q
  | S754_finite s m e =>
      let v := (inject_Z (Zpos m) * Qpower 2 e)%Q in
      Some (if s then Qopp v else v)
  | S754_infinity _ | S754_nan => None
  end.

#[export] Instance float_exact : Exact float := float_to_Q.

(** A binary64 value that is a number (no infinity, no NaN), and one that is
    a zero of either sign. *)
Definition finite (x : float) : Prop :=
  match Prim2SF x with
  | S754_zero _ | S754_finite _ _ _ => True
  | S754_infinity _ | S754_nan => False
  end.

Definition is_zero (x : float) : Prop := exists s, Prim2SF x = S754_zero s.

(** ** Python containers and loops *)

(** A [dict] with integer keys, in insertion order. *)
Definition dict_get {V : Type} (d : list (Z * V)) (k : Z) : option V :=
  snd <$> find (fun kv => Z.eqb (fst kv) k) d.

Fixpoint enumerate_from {X : Type} (k : nat) (xs : list X) : list (nat * X) :=
  match xs with
  | [] => []
  | x :: xs' => (k, x) :: enumerate_from (S k) xs'
  end.

Definition enumerate {X : Type} (xs : list X) : list (nat * X) :=
  enumerate_from 0 xs.

(** [for x in xs: body], the loop body acting on the state [S]; [None] is a
    raised exception, which ends the loop. *)
Fixpoint for_each {X S : Type} (body : X -> S -> option S) (xs : list X) (s : S)
  : option S :=
  match xs with
  | [] => Some s
  | x :: xs' => s' ← body x s; for_each body xs' s'
  end.

(** [np.empty]: a fresh array whose cells hold whatever the allocator left
    there; that content ([junk]) is a parameter of the model. *)
Definition np_empty {T : Type} (junk : nat -> T) (n : nat) : list T :=
  map junk (seq 0 n).

Definition np_empty2 {T : Type} (junk : nat -> nat -> T) (n m : nat)
  : list (list T) :=
  map (fun i => map (junk i) (seq 0 m)) (seq 0 n).

(** [b[i] = v] and [A[i, j] = v]; an index out of range raises [IndexError]. *)
Definition setitem {T : Type} (b : list T) (i : nat) (v : T) : option (list T) :=
  if decide (i < length b) then Some (<[i := v]> b) else None.

Definition setitem2 {T : Type} (A : list (list T)) (i j : nat) (v : T)
  : option (list (list T)) :=
  row ← A !! i;
  row' ← setitem row j v;
  Some (<[i := row']> A).

(** What a call does: it returns a value or raises one of the errors of the
    specification's taxonomy. *)
Inductive error : Type :=
  | InvalidDomain
  | InvalidDomainLength
  | UnknownQuadratureOrder
  | EmptyBasis
  | SingularSystem.

Inductive outcome (T : Type) : Type :=
  | Returns (v : T)
  | Raises (e : error).

Arguments Returns {T} v.
Arguments Raises {T} e.

(** [A[i][j]] of a nested array. *)
Definition entry {T : Type} (A : list (list T)) (i j : nat) : option T :=
  row ← A !! i; row !! j.

(** ** The notebook *)

Section Fem.
Context {T : Type} `{Arith T}.
Local Open Scope py_scope.

(** A function paired with its derivative, as the basis stores them. *)
Definition dfun : Type := (T -> T) * (T -> T).

Definition bilinear : Type := (T -> T) -> (T -> T) -> (T -> T) -> (T -> T) -> T.
Definition linear : Type := (T -> T) -> (T -> T) -> T.

Definition integration_points : list (Z * list (T * T)) :=
  [ (1%Z, [ (lit 0, lit 2) ]);
    (3%Z, [ (lit (-0.577350269189625), lit 1);
            (lit 0.577350269189625, lit 1) ]);
    (5%Z, [ (lit (-0.774596669241483), lit 0.555555555555556);
            (lit 0.0, lit 0.888888888888889);
            (lit 0.774596669241483, lit 0.555555555555556) ]);
    (7%Z, [ (lit (-0.861136311594052), lit 0.347854845137454);
            (lit (-0.339981043584856), lit 0.652145154862545);
            (lit 0.861136311594052, lit 0.347854845137454);
            (lit 0.339981043584856, lit 0.652145154862545) ]) ].

(** [sum(w_k * f(ξ_k) for ξ_k, w_k in integration_points)]: Python's [sum]
    starts from [0] and adds the terms from left to right. *)
Definition integrate_on_reference_element
    (integration_points : list (T * T)) (f : T -> T) : T :=
  fold_left (fun acc '(xi_k, w_k) => acc + w_k * f xi_k)
            integration_points (lit 0).

Definition integrate
    (integration_points : list (T * T)) (domain : T * T) (f : T -> T) : T :=
  let '(a, b) := domain in
  let T_ := fun xi => a * (lit 1 - xi) / lit 2 + b * (lit 1 + xi) / lit 2 in
  let J := fun xi : T => (b - a) / lit 2 in
  let f_hat := fun xi => f (T_ xi) * J xi in
  integrate_on_reference_element integration_points f_hat.

(** A call of [integrate]: the body checks nothing and has no [raise], so
    every call returns the quadrature sum. *)
Definition integrate_call
    (integration_points : list (T * T)) (domain : T * T) (f : T -> T) : outcome T :=
  Returns (integrate integration_points domain f).

Definition weak_formulation
    (integrate : T * T -> (T -> T) -> T) (L : T) (p q r : T -> T) (c d : T)
  : bilinear * linear :=
  let a := fun u w du_dx dw_dx =>
    let integrand := fun x => p x * u x * w x + q x * du_dx x * dw_dx x in
    integrate (lit 0, L) integrand in
  let l := fun (w dw_dx : T -> T) =>
    let integrand := fun x => r x * w x in
    d * w L + integrate (lit 0, L) integrand in
  (a, l).

Definition polynomial_basis_function (k : Z) : dfun :=
  let phi_k := fun x => x ** k in
  let dphi_k_dx := fun x => lit (inject_Z k) * x ** (k - 1) in
  (phi_k, dphi_k_dx).

(** [[polynomial_basis_function(k) for k in range(1, 5)]] *)
Definition polynomial_basis : list dfun :=
  map polynomial_basis_function [1; 2; 3; 4]%Z.

Definition ritz (junkA : nat -> nat -> T) (junkb : nat -> T)
    (weak_formulation : bilinear * linear) (basis : list dfun)
  : option (list (list T) * list T) :=
  let '(a, l) := weak_formulation in
  let n_dof := length basis in
  let A := np_empty2 junkA n_dof n_dof in
  let b := np_empty junkb n_dof in
  for_each (fun '(i, (phi_i, dphi_i_dx)) '(A, b) =>
      A ← for_each (fun '(j, (phi_j, dphi_j_dx)) A =>
               setitem2 A i j (a phi_j phi_i dphi_j_dx dphi_i_dx))
             (enumerate basis) A;
      b ← setitem b i (l phi_i dphi_i_dx);
      Some (A, b))
    (enumerate basis) (A, b).

(** The example cell: the heat equation [-u'' = 1] on ]0, 10[ with
    [u(0) = 1], [u'(10) = 1].  [integration_points[7]] raises [KeyError]
    when the order is not tabulated; the lookup is the same at every call of
    the integrator and is done once here. *)
Definition example (junkA : nat -> nat -> T) (junkb : nat -> T)
  : option (list (list T) * list T) :=
  let L := lit 10 in
  let p := fun x : T => lit 0 in
  let q := fun x : T => lit 1 in
  let r := q in
  let c := lit 1 in
  let d := c in
  rule ← dict_get integration_points 7;
  let integrator := fun domain f => integrate rule domain f in
  ritz junkA junkb (weak_formulation integrator L p q r c d) polynomial_basis.

(** [u(x) = 1 + sum(xj*φ_j(x) for xj, (φ_j, dφ_j_dx) in zip(x_, polynomial_basis))].
    The notebook reads the global [x_], the array [np.linalg.solve] returned;
    it is a parameter here.  [zip] stops at the shorter of the two. *)
Definition u (x_ : list T) (x : T) : T :=
  lit 1 + fold_left (fun acc '(xj, (phi_j, dphi_j_dx)) => acc + xj * phi_j x)
                    (zip x_ polynomial_basis) (lit 0).
End Fem.

(** ** Notions of the specification *)

(** [Σ_k w_k·f(ξ_k)] over a rule. *)
Fixpoint weighted_sum (rule : list (Qc * Qc)) (f : Qc -> Qc) : Qc :=
  match rule with
  | [] => 0%Qc
  | (xi_k, w_k) :: rest => (w_k * f xi_k + weighted_sum rest f)%Qc
  end.

(** The rule reflected in the origin: [ξ_k] becomes [-ξ_k]. *)
Definition mirror (rule : list (Qc * Qc)) : list (Qc * Qc) :=
  map (fun '(xi_k, w_k) => ((- xi_k)%Qc, w_k)) rule.

Definition weights_total (rule : list (Qc * Qc)) : Qc :=
  fold_right Qcplus 0%Qc (map snd rule).

(** [n] as a rational. *)
Fixpoint Qc_nat (n : nat) : Qc :=
  match n with
  | O => 0%Qc
  | S n' => (Qc_nat n' + 1)%Qc
  end.

(** The polynomial [c_0 + c_1 x + c_2 x^2 + ...] of a coefficient list. *)
Fixpoint poly_eval (c : list Qc) (x : Qc) : Qc :=
  match c with
  | [] => 0%Qc
  | c0 :: c' => (c0 + x * poly_eval c' x)%Qc
  end.

(** Its integral over [a, b]: the sum of [c_i (b^(i+1) - a^(i+1)) / (i+1)]. *)
Fixpoint poly_integral_from (i : nat) (c : list Qc) (a b : Qc) : Qc :=
  match c with
  | [] => 0%Qc
  | ci :: c' =>
      (ci * (b ^ S i - a ^ S i) / Qc_nat (S i) + poly_integral_from (S i) c' a b)%Qc
  end.

Definition poly_integral (c : list Qc) (a b : Qc) : Qc :=
  poly_integral_from 0 c a b.

(** Coefficient lists: sum, scaling, and the coefficients of
    [ξ ↦ c(m + J ξ)]. *)
Fixpoint padd (p q : list Qc) : list Qc :=
  match p, q with
  | [], _ => q
  | _, [] => p
  | x :: p', y :: q' => (x + y)%Qc :: padd p' q'
  end.

Definition pscale (k : Qc) (p : list Qc) : list Qc := map (Qcmult k) p.

Fixpoint pcomp (c : list Qc) (m J : Qc) : list Qc :=
  match c with
  | [] => []
  | c0 :: c' =>
      let g := pcomp c' m J in
      padd [c0] (padd (pscale m g) (0%Qc :: pscale J g))
  end.

(** [Σ_i g_i M_(j+i)]: a coefficient list against a sequence of moments. *)
Fixpoint pdot_from (j : nat) (g : list Qc) (M : nat -> Qc) : Qc :=
  match g with
  | [] => 0%Qc
  | g0 :: g' => (g0 * M j + pdot_from (S j) g' M)%Qc
  end.

(** The [j]-th moment of a rule, and the integral of [ξ^j] over [-1, 1]. *)
Definition moment (rule : list (Qc * Qc)) (j : nat) : Qc :=
  weighted_sum rule (fun xi => (xi ^ j)%Qc).

Definition exact_moment (j : nat) : Qc :=
  ((1 - (- (1)) ^ S j) / Qc_nat (S j))%Qc.

Fixpoint norm1 (g : list Qc) : Qc :=
  match g with
  | [] => 0%Qc
  | g0 :: g' => (Qcabs g0 + norm1 g')%Qc
  end.

(** How far a moment of a tabulated rule is from the exact one, at most. *)
Definition moment_tolerance : Qc := Q2Qc 2e-15.

(** [x] is within the relative tolerance [tol] of [e]. *)
Definition close_to {T : Type} `{Exact T} (tol e : Q) (x : T) : Prop :=
  match to_Q x with
  | Some v => (Qabs (v - e) <= tol * Qabs e)%Q
  | None => False
  end.

Definition A_expected : list (list Q) :=
  [ [10; 100; 1000; 10000];
    [100; 1333.33; 15000; 160000];
    [1000; 15000; 180000; 2000000];
    [10000; 160000; 2000000; 22857142.9] ]%Q.

Definition b_expected : list Q := [60; 433.33; 3500; 30000]%Q.

(** The outputs the notebook records for
    [integrate(integ_points, (0, 1), lambda x: x**k)], [k = 0 .. 7], one row
    per [k] and one column per tabulated order. *)
Definition recorded_outputs : list (list float) :=
  [ [1.0; 1.0; 1.0000000000000004; 0.999999999999999];
    [0.5; 0.5; 0.5000000000000002; 0.49999999999999956];
    [0.25; 0.33333333333333304; 0.3333333333333334; 0.333333333333333];
    [0.125; 0.24999999999999958; 0.25; 0.24999999999999972];
    [0.0625; 0.194444444444444; 0.2; 0.19999999999999973];
    [0.03125; 0.15277777777777732; 0.16666666666666663; 0.16666666666666644];
    [0.015625; 0.12037037037036995; 0.14249999999999993; 0.14285714285714263];
    [0.0078125; 0.09490740740740701; 0.12374999999999989; 0.12499999999999978] ]%float.

(** The output the notebook records for the example cell, printed by numpy
    with nine significant digits. *)
Definition A_recorded : list (list Q) :=
  [ [10.0000000; 100.000000; 1000.00000; 10000.0000];
    [100.000000; 1333.33333; 15000.0000; 160000.000];
    [1000.00000; 15000.0000; 180000.000; 2000000.00];
    [10000.0000; 160000.000; 2000000.00; 22857142.9] ]%Q.

Definition b_recorded : list Q := [60.0; 433.33333333; 3500.0; 30000.0]%Q.

Definition monomial_test (k : Z) : list float :=
  map (fun '(_, integ_points) =>
         integrate integ_points (lit 0, lit 1) (fun x => (x ** k)%py))
      integration_points.

(** Entry by entry. *)
Definition all_close {T : Type} `{Exact T} (tol : Q) (xs : list T) (es : list Q) : Prop :=
  Forall2 (fun x e => close_to tol e x) xs es.

(** The example cell in the number system [T]: [ritz] returns a matrix and
    a vector whose entries are within [1e-3] (relative) of the expected
    ones, whatever the fresh arrays held. *)
Definition example_as_expected (T : Type) `{Arith T} `{Exact T} : Prop :=
  forall junkA junkb, exists (A : list (list T)) (b : list T),
    example junkA junkb = Some (A, b)
    /\ Forall2 (all_close 1e-3) A A_expected
    /\ all_close 1e-3 b b_expected.

(** A rule whose points lie in the reference element [[-1, 1]] and whose
    weights are not negative. *)
Definition wellformed_rule (rule : list (Qc * Qc)) : Prop :=
  Forall (fun '(xi_k, w_k) => (- (1) <= xi_k /\ xi_k <= 1 /\ 0 <= w_k)%Qc) rule.

(** A rule whose points lie in the reference element, whatever its weights. *)
Definition points_in_reference (rule : list (Qc * Qc)) : Prop :=
  Forall (fun '(xi_k, _) => (- (1) <= xi_k /\ xi_k <= 1)%Qc) rule.

(** The function [Σ_j x_j f_j], over as many terms as both lists have. *)
Fixpoint combination (xs : list Qc) (fs : list (Qc -> Qc)) (t : Qc) : Qc :=
  match xs, fs with
  | x :: xs', f :: fs' => (x * f t + combination xs' fs' t)%Qc
  | _, _ => 0%Qc
  end.

(** [Σ_j r_j x_j] of a row and a vector, and the quadratic form [x^T A x]. *)
Fixpoint dot (row xs : list Qc) : Qc :=
  match row, xs with
  | r :: row', x :: xs' => (r * x + dot row' xs')%Qc
  | _, _ => 0%Qc
  end.

Definition quadratic_form (A : list (list Qc)) (xs : list Qc) : Qc :=
  dot (map (fun row => dot row xs) A) xs.

(** The coefficients of [11 x - x^2 / 2] in the basis [x, x^2, x^3, x^4]:
    [1 + 11 x - x^2 / 2] solves [-u'' = 1], [u(0) = 1], [u'(10) = 1].  The
    notebook records [[1.10000000e+01, -5.00000000e-01, -8.95283847e-15,
    4.47641924e-16]] as the output of [np.linalg.solve(A, b)]. *)
Definition x_exact : list Qc := [Q2Qc 11; Q2Qc (-0.5); 0%Qc; 0%Qc].

(** ** Proof tools *)

(** Unfold the notebook's arithmetic into the operations of [Qc]. *)
Ltac py := cbn [add sub mul div lit pow Qc_arith] in *.

(** Decide a closed comparison of rationals by evaluation. *)
Ltac qc_compare :=
  vm_compute; first [reflexivity | discriminate | (intro; discriminate)].

(** Unfold the powers [x ** k] of the polynomial basis into products. *)
Ltac unfold_powers :=
  cbn -[Qcmult Qcplus Qcminus Qcdiv Q2Qc Qcopp Qcinv Z.to_nat];
  change (Z.to_nat 1) with 1%nat; change (Z.to_nat 2) with 2%nat;
  change (Z.to_nat 3) with 3%nat; change (Z.to_nat 4) with 4%nat;
  cbn [Qcpower].

(** ** The assembly loops *)

Section Loops.
Context {T : Type}.

Lemma setitem_app (filled rest : list T) (old v : T) :
  setitem (filled ++ old :: rest) (length filled) v = Some (filled ++ v :: rest).
Proof.
  unfold setitem. rewrite decide_True.
  - f_equal. rewrite insert_app_r_alt by lia. by rewrite Nat.sub_diag.
  - rewrite length_app. simpl. lia.
Qed.

(** One pass of the inner loop overwrites row [i], cell by cell. *)
Lemma for_each_row {X : Type} (F : X -> T) (i : nat)
    (body : nat * X -> list (list T) -> option (list (list T))) :
  (forall j x A, body (j, x) A = setitem2 A i j (F x)) ->
  forall (xs : list X) (filled rest : list T) (A : list (list T)),
    A !! i = Some (filled ++ rest) ->
    length rest = length xs ->
    for_each body (enumerate_from (length filled) xs) A
    = Some (<[i := filled ++ map F xs]> A).
Proof.
  intros Hbody xs. induction xs as [|x xs IH]; intros filled rest A HA Hlen.
  - destruct rest; [|done]. simpl. by rewrite list_insert_id.
  - destruct rest as [|old rest]; [done|]. simpl in Hlen.
    cbn [enumerate_from for_each]. rewrite Hbody. unfold setitem2.
    rewrite HA. cbn [mbind option_bind]. rewrite setitem_app. cbn [mbind option_bind].
    assert (Hi : i < length A) by (by eapply lookup_lt_Some).
    specialize (IH (filled ++ [F x]) rest (<[i := filled ++ F x :: rest]> A)).
    rewrite length_app, Nat.add_1_r in IH. rewrite IH.
    + by rewrite list_insert_insert_eq, <- app_assoc.
    + rewrite list_lookup_insert_eq by done. by rewrite <- app_assoc.
    + lia.
Qed.

(** The outer loop fills [A] row by row and [b] cell by cell. *)
Lemma for_each_rows {X : Type} (G : X -> list T) (Lf : X -> T) (n : nat)
    (body : nat * X -> list (list T) * list T -> option (list (list T) * list T)) :
  (forall i x A b row, A !! i = Some row -> length row = n -> i < length b ->
     body (i, x) (A, b) = Some (<[i := G x]> A, <[i := Lf x]> b)) ->
  forall (xs : list X) (filledA restA : list (list T)) (filledb restb : list T),
    length filledA = length filledb ->
    length restA = length xs ->
    length restb = length xs ->
    Forall (fun row => length row = n) restA ->
    for_each body (enumerate_from (length filledA) xs) (filledA ++ restA, filledb ++ restb)
    = Some (filledA ++ map G xs, filledb ++ map Lf xs).
Proof.
  intros Hbody xs. induction xs as [|x xs IH];
    intros filledA restA filledb restb Hd HA Hb Hrows.
  - destruct restA, restb; done.
  - destruct restA as [|row restA]; [done|]. destruct restb as [|old restb]; [done|].
    simpl in HA, Hb. apply Forall_cons_iff in Hrows as [Hrow Hrows].
    cbn [enumerate_from for_each].
    rewrite (Hbody (length filledA) x (filledA ++ row :: restA) (filledb ++ old :: restb) row).
    + cbn [mbind option_bind].
      rewrite insert_app_r_alt by lia. rewrite Nat.sub_diag.
      rewrite Hd at 2. rewrite insert_app_r_alt by lia. rewrite Nat.sub_diag.
      simpl insert.
      specialize (IH (filledA ++ [G x]) restA (filledb ++ [Lf x]) restb).
      rewrite length_app, Nat.add_1_r in IH.
      rewrite <- !app_assoc in IH. cbn [app] in IH. simpl. rewrite IH; try done; try lia.
      rewrite !length_app. simpl. lia.
    + rewrite lookup_app_r by lia. by rewrite Nat.sub_diag.
    + done.
    + rewrite length_app. simpl. lia.
Qed.

(** What [ritz] returns, in closed form: every cell of the uninitialised
    arrays has been overwritten. *)
Lemma ritz_closed_form (junkA : nat -> nat -> T) (junkb : nat -> T)
    (a : bilinear) (l : linear) (basis : list dfun) :
  ritz junkA junkb (a, l) basis
  = Some (map (fun phi_i : dfun =>
                 map (fun phi_j : dfun => a phi_j.1 phi_i.1 phi_j.2 phi_i.2) basis)
              basis,
          map (fun phi_i : dfun => l phi_i.1 phi_i.2) basis).
Proof.
  unfold ritz, enumerate.
  refine (for_each_rows
    (fun phi_i : dfun => map (fun phi_j : dfun => a phi_j.1 phi_i.1 phi_j.2 phi_i.2) basis)
    (fun phi_i : dfun => l phi_i.1 phi_i.2) (length basis) _ _ basis [] _ [] _ _ _ _ _).
  - intros i [phi_i dphi_i] A b row HA Hrow Hi.
    cbn beta iota.
    unshelve erewrite (for_each_row (fun phi_j : dfun => a phi_j.1 phi_i phi_j.2 dphi_i) i
                _ _ basis [] row A HA Hrow).
    + by intros j [??] ?.
    + cbn [mbind option_bind app]. unfold setitem. by rewrite decide_True.
  - done.
  - unfold np_empty2. by rewrite length_map, length_seq.
  - unfold np_empty. by rewrite length_map, length_seq.
  - unfold np_empty2. apply Forall_map, Forall_forall. intros i _. simpl.
    by rewrite length_map, length_seq.
Qed.
End Loops.

(** ** Quadrature in exact arithmetic *)

Section ExactQuadrature.
Local Open Scope Qc_scope.

Lemma fold_left_weighted (rule : list (Qc * Qc)) (f : Qc -> Qc) (acc : Qc) :
  fold_left (fun acc '(xi_k, w_k) => (acc + w_k * f xi_k)%py) rule acc
  = acc + weighted_sum rule f.
Proof.
  revert acc. induction rule as [|[xi w] rule IH]; intros acc; simpl.
  - ring.
  - rewrite IH. py. ring.
Qed.

Lemma reference_weighted (rule : list (Qc * Qc)) (f : Qc -> Qc) :
  integrate_on_reference_element rule f = weighted_sum rule f.
Proof.
  unfold integrate_on_reference_element. rewrite fold_left_weighted. py.
  change (Q2Qc 0) with 0. ring.
Qed.

Lemma weighted_sum_ext (rule : list (Qc * Qc)) (f g : Qc -> Qc) :
  (forall xi w, In (xi, w) rule -> f xi = g xi) ->
  weighted_sum rule f = weighted_sum rule g.
Proof.
  induction rule as [|[xi w] rule IH]; intros Hfg; simpl; [done|].
  rewrite (Hfg xi w) by (by left). rewrite IH; [done|].
  intros xi' w' Hin. apply (Hfg xi' w'). by right.
Qed.

Lemma weighted_sum_scale (rule : list (Qc * Qc)) (f : Qc -> Qc) (c : Qc) :
  weighted_sum rule (fun xi => f xi * c) = weighted_sum rule f * c.
Proof.
  induction rule as [|[xi w] rule IH]; simpl; [ring|]. rewrite IH. ring.
Qed.

Lemma weighted_sum_mirror (rule : list (Qc * Qc)) (f : Qc -> Qc) :
  weighted_sum (mirror rule) f = weighted_sum rule (fun xi => f (- xi)).
Proof.
  induction rule as [|[xi w] rule IH]; simpl; [done|]. by rewrite IH.
Qed.

Lemma weighted_sum_perm (rule rule' : list (Qc * Qc)) (f : Qc -> Qc) :
  Permutation rule rule' -> weighted_sum rule f = weighted_sum rule' f.
Proof.
  induction 1 as [|[xi w] r r' _ IH|[xi w] [xi' w'] r|r r' r'' _ IH _ IH']; simpl.
  - done.
  - by rewrite IH.
  - ring.
  - by rewrite IH.
Qed.

Lemma integrate_weighted (rule : list (Qc * Qc)) (a b : Qc) (f : Qc -> Qc) :
  integrate rule (a, b) f
  = weighted_sum rule (fun xi => f ((a + b) / Q2Qc 2 + (b - a) / Q2Qc 2 * xi))
    * ((b - a) / Q2Qc 2).
Proof.
  unfold integrate. rewrite reference_weighted. py.
  rewrite <- weighted_sum_scale. apply weighted_sum_ext. intros xi w _.
  do 2 f_equal. field. done.
Qed.
End ExactQuadrature.

(** ** Polynomials under a quadrature rule *)

Section Poly.
Local Open Scope Qc_scope.

Lemma lit_2 : Q2Qc 2 = 1 + 1.
Proof. by apply Qc_is_canon. Qed.

Lemma change_of_variable (c : list Qc) (a b : Qc) :
  (length c <= 8)%nat ->
  poly_integral c a b
  = pdot_from 0 (pcomp c ((a + b) / Q2Qc 2) ((b - a) / Q2Qc 2)) exact_moment
    * ((b - a) / Q2Qc 2).
Proof.
  intros Hlen. unfold poly_integral, exact_moment. rewrite lit_2.
  do 9 (destruct c as [|? c];
        [cbn -[Qcmult Qcplus Qcminus Qcdiv Q2Qc Qcopp]; field; repeat split; done|]).
  simpl in Hlen. lia.
Qed.

Lemma poly_eval_padd (p q : list Qc) (x : Qc) :
  poly_eval (padd p q) x = poly_eval p x + poly_eval q x.
Proof.
  revert q. induction p as [|p0 p IH]; intros [|q0 q]; simpl; try ring.
  rewrite IH. ring.
Qed.

Lemma poly_eval_pscale (k : Qc) (p : list Qc) (x : Qc) :
  poly_eval (pscale k p) x = k * poly_eval p x.
Proof. induction p as [|p0 p IH]; simpl; [ring|]. rewrite IH. ring. Qed.

Lemma poly_eval_pcomp (c : list Qc) (m J x : Qc) :
  poly_eval (pcomp c m J) x = poly_eval c (m + J * x).
Proof.
  induction c as [|c0 c IH]; [done|].
  cbn [pcomp]. rewrite !poly_eval_padd. cbn [poly_eval].
  rewrite !poly_eval_pscale, IH. ring.
Qed.

Lemma weighted_sum_add (rule : list (Qc * Qc)) (f g : Qc -> Qc) :
  weighted_sum rule (fun xi => f xi + g xi) = weighted_sum rule f + weighted_sum rule g.
Proof. induction rule as [|[xi w] rule IH]; simpl; [ring|]. rewrite IH. ring. Qed.

Lemma weighted_sum_poly (rule : list (Qc * Qc)) (g : list Qc) (j : nat) :
  weighted_sum rule (fun xi => xi ^ j * poly_eval g xi) = pdot_from j g (moment rule).
Proof.
  revert j. induction g as [|g0 g IH]; intros j; cbn [poly_eval pdot_from].
  - induction rule as [|[xi w] rule IHr]; simpl; [done|]. rewrite IHr. ring.
  - rewrite <- IH. unfold moment.
    rewrite <- (Qcmult_comm (weighted_sum _ _)), <- weighted_sum_scale, <- weighted_sum_add.
    apply weighted_sum_ext. intros xi w _. simpl. ring.
Qed.

Lemma integrate_poly (rule : list (Qc * Qc)) (c : list Qc) (a b : Qc) :
  integrate rule (a, b) (poly_eval c)
  = pdot_from 0 (pcomp c ((a + b) / Q2Qc 2) ((b - a) / Q2Qc 2)) (moment rule)
    * ((b - a) / Q2Qc 2).
Proof.
  rewrite integrate_weighted, <- weighted_sum_poly. f_equal.
  apply weighted_sum_ext. intros xi w _. rewrite poly_eval_pcomp. simpl. ring.
Qed.

Lemma pdot_from_sub (g : list Qc) (M E : nat -> Qc) (j : nat) :
  pdot_from j g M - pdot_from j g E = pdot_from j g (fun i => M i - E i).
Proof.
  revert j. induction g as [|g0 g IH]; intros j; simpl; [ring|]. rewrite <- IH. ring.
Qed.

Lemma norm1_nonneg (g : list Qc) : 0 <= norm1 g.
Proof.
  induction g as [|g0 g IH]; simpl; [done|].
  apply Qcplus_nonneg_nonneg; [apply Qcabs_nonneg | done].
Qed.

Lemma pdot_from_bound (eps : Qc) (d : nat -> Qc) (g : list Qc) (j : nat) :
  (forall i, (j <= i < j + length g)%nat -> Qcabs (d i) <= eps) ->
  Qcabs (pdot_from j g d) <= norm1 g * eps.
Proof.
  revert j. induction g as [|g0 g IH]; intros j Hd; simpl.
  - rewrite Qcmult_0_l. done.
  - eapply Qcle_trans; [apply Qcabs_triangle|].
    rewrite Qcmult_plus_distr_l. apply Qcplus_le_compat.
    + rewrite Qcabs_Qcmult. apply Qcmult_le_mono_nonneg_l; [apply Qcabs_nonneg|].
      apply Hd. simpl. lia.
    + apply IH. intros i Hi. apply Hd. simpl. lia.
Qed.

Lemma norm1_padd (p q : list Qc) : norm1 (padd p q) <= norm1 p + norm1 q.
Proof.
  revert q. induction p as [|p0 p IH]; intros [|q0 q]; simpl.
  - done.
  - rewrite Qcplus_0_l. apply Qcle_refl.
  - rewrite Qcplus_0_r. apply Qcle_refl.
  - eapply Qcle_trans.
    + apply Qcplus_le_compat; [apply Qcabs_triangle | apply IH].
    + match goal with |- ?x <= ?y => replace y with x by ring end. apply Qcle_refl.
Qed.

Lemma norm1_pscale (k : Qc) (p : list Qc) : norm1 (pscale k p) = Qcabs k * norm1 p.
Proof.
  induction p as [|p0 p IH]; simpl; [ring|]. rewrite IH, Qcabs_Qcmult. ring.
Qed.

Lemma length_padd (p q : list Qc) : length (padd p q) = Nat.max (length p) (length q).
Proof.
  revert q. induction p as [|p0 p IH]; intros [|q0 q]; simpl; try done.
  by rewrite IH.
Qed.

Lemma length_pcomp (c : list Qc) (m J : Qc) : length (pcomp c m J) = length c.
Proof.
  induction c as [|c0 c IH]; [done|].
  cbn [pcomp]. rewrite !length_padd. cbn [length]. unfold pscale.
  rewrite !length_map, IH. lia.
Qed.

Lemma poly_eval_abs_nonneg (c : list Qc) (x : Qc) :
  0 <= x -> 0 <= poly_eval (map Qcabs c) x.
Proof.
  intros Hx. induction c as [|c0 c IH]; simpl; [done|].
  apply Qcplus_nonneg_nonneg; [apply Qcabs_nonneg|].
  by apply Qcmult_nonneg_nonneg.
Qed.

Lemma poly_eval_abs_mono (c : list Qc) (x y : Qc) :
  0 <= x -> x <= y -> poly_eval (map Qcabs c) x <= poly_eval (map Qcabs c) y.
Proof.
  intros Hx Hxy. induction c as [|c0 c IH]; simpl; [done|].
  apply Qcplus_le_compat; [apply Qcle_refl|].
  eapply Qcle_trans.
  - apply Qcmult_le_mono_nonneg_l; [done | apply IH].
  - apply Qcmult_le_mono_nonneg_r; [|done].
    apply poly_eval_abs_nonneg. by eapply Qcle_trans.
Qed.

Lemma norm1_pcomp (c : list Qc) (m J : Qc) :
  norm1 (pcomp c m J) <= poly_eval (map Qcabs c) (Qcabs m + Qcabs J).
Proof.
  induction c as [|c0 c IH]; [done|].
  cbn [pcomp map poly_eval].
  eapply Qcle_trans; [apply norm1_padd|].
  apply Qcplus_le_compat; [simpl; rewrite Qcplus_0_r; apply Qcle_refl|].
  eapply Qcle_trans; [apply norm1_padd|].
  cbn [norm1]. rewrite !norm1_pscale.
  replace (Qcabs m * norm1 (pcomp c m J) + (Qcabs 0 + Qcabs J * norm1 (pcomp c m J)))
    with ((Qcabs m + Qcabs J) * norm1 (pcomp c m J)).
  - apply Qcmult_le_mono_nonneg_l; [|done].
    apply Qcplus_nonneg_nonneg; apply Qcabs_nonneg.
  - replace (Qcabs 0) with 0 by (symmetry; by apply Qcabs_pos). ring.
Qed.
Lemma midpoint_radius (a b R : Qc) :
  Qcabs a <= R -> Qcabs b <= R ->
  Qcabs ((a + b) / Q2Qc 2) + Qcabs ((b - a) / Q2Qc 2) <= R.
Proof.
  intros Ha Hb. rewrite lit_2.
  assert (Ha' : - a <= R) by (eapply Qcle_trans; [|exact Ha]; rewrite <- Qcabs_opp; apply Qcle_Qcabs).
  assert (Hb' : - b <= R) by (eapply Qcle_trans; [|exact Hb]; rewrite <- Qcabs_opp; apply Qcle_Qcabs).
  assert (Ha'' : a <= R) by (eapply Qcle_trans; [apply Qcle_Qcabs | exact Ha]).
  assert (Hb'' : b <= R) by (eapply Qcle_trans; [apply Qcle_Qcabs | exact Hb]).
  apply (Qcabs_case ((a + b) / (1 + 1))); intros _;
    apply (Qcabs_case ((b - a) / (1 + 1))); intros _.
  - replace ((a + b) / (1 + 1) + (b - a) / (1 + 1)) with b by (field; done). done.
  - replace ((a + b) / (1 + 1) + - ((b - a) / (1 + 1))) with a by (field; done). done.
  - replace (- ((a + b) / (1 + 1)) + (b - a) / (1 + 1)) with (- a) by (field; done). done.
  - replace (- ((a + b) / (1 + 1)) + - ((b - a) / (1 + 1))) with (- b) by (field; done). done.
Qed.

Lemma dict_get_In {V : Type} (d : list (Z * V)) (k : Z) (v : V) :
  dict_get d k = Some v -> In (k, v) d.
Proof.
  unfold dict_get. destruct (find _ d) as [[k' v']|] eqn:Hfind; [|done].
  intros [= <-]. apply find_some in Hfind as [Hin Hk]. simpl in Hk.
  apply Z.eqb_eq in Hk. by subst.
Qed.

Lemma moment_error (order : Z) (rule : list (Qc * Qc)) (j : nat) :
  dict_get integration_points order = Some rule ->
  (Z.of_nat j <= order)%Z ->
  Qcabs (moment rule j - exact_moment j) <= moment_tolerance.
Proof.
  intros Hrule Hj. apply dict_get_In in Hrule.
  repeat (destruct Hrule as [[= <- <-]|Hrule]);
    [ | | | | destruct Hrule];
    do 8 (destruct j as [|j]; [first [lia | qc_compare]|]); lia.
Qed.
Lemma tabulated_order (order : Z) (rule : list (Qc * Qc)) :
  dict_get integration_points order = Some rule -> In order [1; 3; 5; 7]%Z.
Proof.
  intros Hrule. apply dict_get_In in Hrule.
  repeat (destruct Hrule as [[= <- <-]|Hrule]); simpl; tauto.
Qed.

Lemma integrate_ext (rule : list (Qc * Qc)) (a b : Qc) (f g : Qc -> Qc) :
  (forall x, f x = g x) -> integrate rule (a, b) f = integrate rule (a, b) g.
Proof.
  intros Hfg. rewrite !integrate_weighted. f_equal.
  apply weighted_sum_ext. intros xi w _. apply Hfg.
Qed.

(** The quadrature error on a polynomial, in terms of the errors of the
    rule's moments. *)
Lemma integrate_poly_error (order : Z) (rule : list (Qc * Qc)) (c : list Qc) (a b R : Qc) :
  dict_get integration_points order = Some rule ->
  (Z.of_nat (length c) <= order + 1)%Z ->
  Qcabs a <= R -> Qcabs b <= R ->
  Qcabs (integrate rule (a, b) (poly_eval c) - poly_integral c a b)
  <= Qcabs ((b - a) / Q2Qc 2) * poly_eval (map Qcabs c) R * moment_tolerance.
Proof.
  intros Hrule Hlen Ha Hb.
  assert (Hlen8 : (length c <= 8)%nat).
  { pose proof (tabulated_order _ _ Hrule) as Hin. simpl in Hin. lia. }
  rewrite integrate_poly, change_of_variable by done.
  set (m := (a + b) / Q2Qc 2). set (J := (b - a) / Q2Qc 2). set (g := pcomp c m J).
  replace (pdot_from 0 g (moment rule) * J - pdot_from 0 g exact_moment * J)
    with ((pdot_from 0 g (moment rule) - pdot_from 0 g exact_moment) * J) by ring.
  rewrite pdot_from_sub, Qcabs_Qcmult.
  rewrite (Qcmult_comm (Qcabs J)), <- Qcmult_assoc, (Qcmult_comm (Qcabs J)), Qcmult_assoc.
  apply Qcmult_le_mono_nonneg_r; [apply Qcabs_nonneg|].
  eapply Qcle_trans.
  - apply pdot_from_bound with (eps := moment_tolerance). intros i Hi.
    apply (moment_error order); [done|]. unfold g in Hi. rewrite length_pcomp in Hi. lia.
  - apply Qcmult_le_mono_nonneg_r; [qc_compare|].
    eapply Qcle_trans; [apply norm1_pcomp|].
    apply poly_eval_abs_mono.
    + apply Qcplus_nonneg_nonneg; apply Qcabs_nonneg.
    + by apply midpoint_radius.
Qed.

End Poly.

(** ** Zeros in binary64 *)

Lemma mul_zero_l (x y : float) : is_zero x -> finite y -> is_zero (x * y)%float.
Proof.
  intros [s Hx] Hy. unfold is_zero, finite in *. rewrite FloatAxioms.mul_spec, Hx.
  destruct (Prim2SF y) as [sy|sy| |sy my ey]; try done; simpl; eauto.
Qed.

Lemma mul_zero_r (x y : float) : finite x -> is_zero y -> is_zero (x * y)%float.
Proof.
  intros Hx [s Hy]. unfold is_zero, finite in *. rewrite FloatAxioms.mul_spec, Hy.
  destruct (Prim2SF x) as [sx|sx| |sx mx ex]; try done; simpl; eauto.
Qed.

Lemma add_zero_l (y : float) : is_zero y -> (0 + y)%float = 0%float.
Proof.
  intros [s Hy]. apply Prim2SF_inj. rewrite FloatAxioms.add_spec, Hy.
  by destruct s.
Qed.

Lemma add_zero_r (x : float) : Prim2SF x <> S754_zero true -> (x + 0)%float = x.
Proof.
  intros Hx. apply Prim2SF_inj. rewrite FloatAxioms.add_spec.
  change (Prim2SF 0) with (S754_zero false).
  destruct (Prim2SF x) as [[]|[]| |sx mx ex]; done.
Qed.

(** A sum of zeros of either sign, started from [0], is [+0.0]. *)
Lemma reference_zero (rule : list (float * float)) (g : float -> float) :
  Forall (fun '(xi_k, w_k) => finite w_k /\ is_zero (g xi_k)) rule ->
  integrate_on_reference_element rule g = 0%float.
Proof.
  unfold integrate_on_reference_element. change (lit 0) with 0%float.
  induction 1 as [|[xi wk] rule [Hw Hg] _ IH]; simpl; [done|].
  rewrite add_zero_l; [done|]. by apply mul_zero_r.
Qed.

Lemma sub_diag_finite (a : float) : finite a -> (a - a)%float = 0%float.
Proof.
  intros Ha. apply Prim2SF_inj. rewrite FloatAxioms.sub_spec. unfold finite in Ha.
  change (Prim2SF 0) with (S754_zero false).
  destruct (Prim2SF a) as [[]|[]| |sa ma ea]; try done.
  unfold SF64sub, SFsub. by rewrite Z.sub_diag.
Qed.

(** ** Properties of the notebook *)

Section Properties.
Local Open Scope Qc_scope.

Lemma lookup_map {X Y : Type} (f : X -> Y) (xs : list X) (i : nat) :
  map f xs !! i = f <$> xs !! i.
Proof. revert i. induction xs as [|x xs IH]; intros [|i]; simpl; done. Qed.

(** [A[i][j]] of an array built row by row from one list. *)
Lemma entry_map {T X : Type} (F : X -> X -> T) (xs : list X) (i j : nat) :
  entry (map (fun x => map (F x) xs) xs) i j
  = x ← xs !! i; y ← xs !! j; Some (F x y).
Proof.
  unfold entry. rewrite lookup_map. destruct (xs !! i) as [x|]; simpl; [|done].
  rewrite lookup_map. by destruct (xs !! j).
Qed.

(** The result of [ritz] does not depend on what the fresh arrays held. *)
Lemma ritz_junk_irrelevant {T : Type}
    (junkA junkA' : nat -> nat -> T) (junkb junkb' : nat -> T)
    (weak_formulation : bilinear * linear) (basis : list dfun) :
  ritz junkA junkb weak_formulation basis = ritz junkA' junkb' weak_formulation basis.
Proof. destruct weak_formulation as [a l]. by rewrite !ritz_closed_form. Qed.

Lemma example_closed_form {T : Type} `{Arith T}
    (junkA : nat -> nat -> T) (junkb : nat -> T) :
  example junkA junkb = example (fun _ _ => lit 0) (fun _ => lit 0).
Proof.
  unfold example. destruct (dict_get integration_points 7); [|done].
  cbn [mbind option_bind]. unfold weak_formulation. cbv zeta.
  apply ritz_junk_irrelevant.
Qed.

(** [integrate] as a sum over the rule, with the map [T] and the Jacobian
    written as the notebook does. *)
Lemma integrate_as_sum (rule : list (Qc * Qc)) (a b : Qc) (f : Qc -> Qc) :
  integrate rule (a, b) f
  = weighted_sum rule (fun xi => f (a * (1 - xi) / 2 + b * (1 + xi) / 2))
    * ((b - a) / 2).
Proof.
  unfold integrate. rewrite reference_weighted. py. rewrite lit_2.
  apply weighted_sum_scale.
Qed.

(** Every tabulated rule is symmetric about the origin. *)
Lemma tabulated_rules_symmetric (order : Z) (rule : list (Qc * Qc)) :
  dict_get integration_points order = Some rule -> Permutation (mirror rule) rule.
Proof.
  intros Hrule. apply dict_get_In in Hrule.
  repeat (destruct Hrule as [[= <- <-]|Hrule]); [ | | | | destruct Hrule].
  - match goal with |- Permutation (mirror ?l) _ =>
      replace (mirror l) with l; [done|] end.
    unfold mirror. simpl. repeat f_equal; by apply Qc_is_canon.
  - match goal with |- Permutation (mirror ?l) _ =>
      replace (mirror l) with (rev l); [symmetry; apply Permutation_rev|] end.
    unfold mirror. simpl. repeat f_equal; by apply Qc_is_canon.
  - match goal with |- Permutation (mirror ?l) _ =>
      replace (mirror l) with (rev l); [symmetry; apply Permutation_rev|] end.
    unfold mirror. simpl. repeat f_equal; by apply Qc_is_canon.
  - match goal with |- Permutation (mirror (?x1 :: ?x2 :: ?l)) _ =>
      replace (mirror (x1 :: x2 :: l)) with (l ++ [x1; x2]);
      [apply (Permutation_app_comm l [x1; x2])|] end.
    unfold mirror. simpl. repeat f_equal; by apply Qc_is_canon.
Qed.

(** C1. With [L = 10], [p = 0], [q = r = 1], [c = d = 1], the tabulated
    rule of order 7 and the basis [x, x^2, x^3, x^4], [ritz] returns a
    matrix and a vector whose entries are within the relative tolerance
    [1e-3] of the stated values: in exact arithmetic on the tabulated
    constants, and in binary64. *)
Theorem example_linear_system :
  example_as_expected Qc /\ example_as_expected float.
Proof.
  split; intros junkA junkb; rewrite example_closed_form;
    (eexists _, _; split; [vm_compute; reflexivity|]);
    split; repeat constructor; vm_compute; intro; discriminate.
Qed.

(** C2. For every basis and every weak form [(a, l)], [ritz] returns an
    [n × n] matrix [A] and a vector [b] of length [n], [n] the size of the
    basis, with [A[i][j] = a(φ_j, φ_i, φ_j', φ_i')] (trial function [φ_j]
    first, test function [φ_i] second) and [b[i] = l(φ_i, φ_i')], whatever
    [a] is (symmetric or not) and whatever the fresh arrays held. *)
Theorem ritz_assembles {T : Type} (junkA : nat -> nat -> T) (junkb : nat -> T)
    (a : bilinear) (l : linear) (basis : list dfun) :
  exists (A : list (list T)) (b : list T),
    ritz junkA junkb (a, l) basis = Some (A, b)
    /\ length A = length basis
    /\ Forall (fun row => length row = length basis) A
    /\ length b = length basis
    /\ forall (i j : nat) (phi_i dphi_i phi_j dphi_j : T -> T),
         basis !! i = Some (phi_i, dphi_i) ->
         basis !! j = Some (phi_j, dphi_j) ->
         entry A i j = Some (a phi_j phi_i dphi_j dphi_i)
         /\ b !! i = Some (l phi_i dphi_i).
Proof.
  eexists _, _. split; [apply ritz_closed_form|].
  rewrite !length_map. split; [done|]. split; [|split; [done|]].
  - apply Forall_map, Forall_forall. intros phi_i _. simpl. by rewrite length_map.
  - intros i j phi_i dphi_i phi_j dphi_j Hi Hj. split.
    + rewrite (entry_map (fun phi_i phi_j : dfun => a phi_j.1 phi_i.1 phi_j.2 phi_i.2)).
      unfold dfun in *. by rewrite Hi, Hj.
    + rewrite lookup_map. unfold dfun in *. by rewrite Hi.
Qed.

(** An asymmetric form on integer-valued functions, [a(u, w) = u'(1)], with
    the basis [x, x^2]: column [j] of the matrix holds [φ_j'(1)], so the
    entries above and below the diagonal differ. *)
Lemma ritz_assembles_witness :
  exists (A : list (list Z)) (b : list Z),
    ritz (fun _ _ => 0%Z) (fun _ => 0%Z)
         (fun u w du_dx dw_dx => du_dx 1%Z, fun w dw_dx => w 1%Z)
         [ (fun x => x, fun _ => 1%Z); (fun x => (x * x)%Z, fun x => (2 * x)%Z) ]
    = Some (A, b)
    /\ entry A 0 1 = Some 2%Z
    /\ entry A 1 0 = Some 1%Z.
Proof.
  destruct (ritz_assembles (fun _ _ => 0%Z) (fun _ => 0%Z)
              (fun u w du_dx dw_dx => du_dx 1%Z) (fun w dw_dx => w 1%Z)
              [ (fun x => x, fun _ => 1%Z); (fun x => (x * x)%Z, fun x => (2 * x)%Z) ])
    as (A & b & Hritz & _ & _ & _ & Hentries).
  exists A, b. split; [exact Hritz|]. split.
  - exact (proj1 (Hentries 0%nat 1%nat _ _ _ _ eq_refl eq_refl)).
  - exact (proj1 (Hentries 1%nat 0%nat _ _ _ _ eq_refl eq_refl)).
Defined.

(** C3. For every rule, function [f] and domain [(a, b)]:
    [integrate_on_reference_element(rule, f)] is [Σ_k w_k·f(ξ_k)], and
    [integrate(rule, (a, b), f)] is [integrate_on_reference_element] of
    [ξ ↦ f(T(ξ))·(b - a)/2] with [T(ξ) = a(1 - ξ)/2 + b(1 + ξ)/2]. *)
Theorem quadrature_sums (rule : list (Qc * Qc)) (f : Qc -> Qc) (a b : Qc) :
  integrate_on_reference_element rule f = weighted_sum rule f
  /\ integrate rule (a, b) f
     = integrate_on_reference_element rule
         (fun xi => f (a * (1 - xi) / 2 + b * (1 + xi) / 2) * ((b - a) / 2)).
Proof.
  split; [apply reference_weighted|].
  unfold integrate. rewrite !reference_weighted. py. by rewrite lit_2.
Qed.

(** C4, as the code has it.  In exact arithmetic, whatever the integrator,
    [L], the coefficients and the boundary data, the bilinear form of
    [weak_formulation] is symmetric, [a(u, w, u', w') = a(w, u, w', u')], and
    the matrix [ritz] assembles from it satisfies [A[i][j] = A[j][i]].  In
    binary64 the two sides round [p·u·w] and [p·w·u] in different orders and
    need not agree bit for bit; on the example cell, where [p = 0] and
    [q = 1], the matrix is symmetric bit for bit. *)
Theorem bilinear_form_symmetric
    (integrator : Qc * Qc -> (Qc -> Qc) -> Qc) (L : Qc) (p q r : Qc -> Qc) (c d : Qc) :
  (forall u w du_dx dw_dx : Qc -> Qc,
     (weak_formulation integrator L p q r c d).1 u w du_dx dw_dx
     = (weak_formulation integrator L p q r c d).1 w u dw_dx du_dx)
  /\ (forall junkA junkb (basis : list dfun),
       exists (A : list (list Qc)) (b : list Qc),
         ritz junkA junkb (weak_formulation integrator L p q r c d) basis = Some (A, b)
         /\ forall i j : nat, entry A i j = entry A j i)
  /\ (forall (junkA : nat -> nat -> float) (junkb : nat -> float),
       exists (A : list (list float)) (b : list float),
         example junkA junkb = Some (A, b)
         /\ forall i j : nat, entry A i j = entry A j i).
Proof.
  assert (Hfloat : forall (junkA : nat -> nat -> float) (junkb : nat -> float),
     exists (A : list (list float)) (b : list float),
       example junkA junkb = Some (A, b)
       /\ forall i j : nat, entry A i j = entry A j i).
  { intros junkA junkb. rewrite example_closed_form.
    eexists _, _. split; [vm_compute; reflexivity|]. intros i j.
    do 4 (destruct i as [|i]; [do 4 (destruct j as [|j]; [reflexivity|]); reflexivity|]).
    do 4 (destruct j as [|j]; [reflexivity|]); reflexivity. }
  assert (Hsym : forall u w du_dx dw_dx : Qc -> Qc,
     (weak_formulation integrator L p q r c d).1 u w du_dx dw_dx
     = (weak_formulation integrator L p q r c d).1 w u dw_dx du_dx).
  { intros u w du_dx dw_dx. cbn [weak_formulation fst]. f_equal.
    apply functional_extensionality. intros x. py. ring. }
  split; [exact Hsym|]. split; [|exact Hfloat]. intros junkA junkb basis.
  destruct (weak_formulation integrator L p q r c d) as [a l] eqn:Hwf.
  cbn [fst] in Hsym.
  eexists _, _. split; [apply ritz_closed_form|]. intros i j.
  rewrite !(entry_map (fun phi_i phi_j : dfun => a phi_j.1 phi_i.1 phi_j.2 phi_i.2)).
  destruct (basis !! i) as [phi_i|], (basis !! j) as [phi_j|]; simpl; try done.
  by rewrite Hsym.
Qed.

(** C4 fails on the code, which computes in binary64.  With the rule of
    order 1 on [(0, 2)] (one sample, at [1], Jacobian [1]), [p = 0.1],
    [q = 1] and the constant functions [u = 0.2], [w = 0.3] (derivatives
    [0]): [(0.1·0.2)·0.3] is [0.006000000000000001] and [(0.1·0.3)·0.2] is
    [0.006], so [a(u, w) = 0.012000000000000002] and [a(w, u) = 0.012], and
    the matrix [ritz] assembles from the two functions has
    [A[0][1] <> A[1][0]]. *)
Lemma bilinear_form_rounding_asymmetric :
  let wf := weak_formulation (integrate [ (lit 0, lit 2) ]) (lit 2)
              (fun _ => lit 0.1) (fun _ => lit 1) (fun _ => lit 1) (lit 1) (lit 1) in
  let u : float -> float := fun _ => lit 0.2 in
  let w : float -> float := fun _ => lit 0.3 in
  let zero : float -> float := fun _ => lit 0 in
  wf.1 u w zero zero = 0.012000000000000002%float
  /\ wf.1 w u zero zero = 0.012%float
  /\ wf.1 u w zero zero <> wf.1 w u zero zero
  /\ exists (A : list (list float)) (b : list float),
       ritz (fun _ _ => lit 0) (fun _ => lit 0) wf [ (u, zero); (w, zero) ] = Some (A, b)
       /\ entry A 0 1 = Some 0.012%float
       /\ entry A 1 0 = Some 0.012000000000000002%float
       /\ entry A 0 1 <> entry A 1 0.
Proof.
  cbv zeta. split; [vm_compute; reflexivity|]. split; [vm_compute; reflexivity|].
  split.
  - intros Heq. apply (f_equal Prim2SF) in Heq. vm_compute in Heq. discriminate.
  - eexists _, _. split; [vm_compute; reflexivity|].
    split; [reflexivity|]. split; [reflexivity|].
    intros Heq. apply (f_equal (fmap (M := option) Prim2SF)) in Heq.
    vm_compute in Heq. discriminate.
Qed.

(** C5, as the code has it. [integrate] does not check its domain: for every
    domain, [a >= b] included, the call raises nothing and returns
    [(Σ_k w_k·f(T(ξ_k)))·(b - a)/2]. *)
Theorem integrate_checks_no_domain (rule : list (Qc * Qc)) (a b : Qc) (f : Qc -> Qc) :
  integrate_call rule (a, b) f
  = Returns (weighted_sum rule (fun xi => f (a * (1 - xi) / 2 + b * (1 + xi) / 2))
             * ((b - a) / 2)).
Proof. unfold integrate_call. f_equal. apply integrate_as_sum. Qed.

(** C5 fails on the code: on the domain [(1, 0)] the rule of order 1 and
    [f(x) = x] give the value [-1/2], not the error [InvalidDomain]. *)
Lemma integrate_reversed_domain_returns :
  integrate_call [ (lit 0, lit 2) ] (1, 0) (fun x => x) = Returns (Q2Qc (-0.5))
  /\ integrate_call [ (lit 0, lit 2) ] (1, 0) (fun x : Qc => x) <> Raises InvalidDomain.
Proof.
  split; [|discriminate]. unfold integrate_call. f_equal. by apply Qc_is_canon.
Qed.

(** C6, as the code has it.  For a tabulated rule of order [k] and a
    polynomial [f] of degree at most [k] with coefficients [c], on a domain
    [(a, b)] inside [[-R, R]]: in exact arithmetic on the tabulated
    constants, [integrate] is within [2e-15 · |b - a|/2 · Σ_i |c_i| R^i] of
    the integral of [f] over [[a, b]], an error relative to the magnitude of
    the integrand (so below [1e-10] where that magnitude is below
    [5·10^4]).  In binary64 the result is within [1e-10] of the integral for
    the monomials [x^j], [j] up to the order of the rule, on [(0, 1)]. *)
Theorem integrate_exact_on_polynomials
    (order : Z) (rule : list (Qc * Qc)) (c : list Qc) (f : Qc -> Qc) (a b R : Qc) :
  dict_get integration_points order = Some rule ->
  (Z.of_nat (length c) <= order + 1)%Z ->
  (forall x, f x = poly_eval c x) ->
  Qcabs a <= R -> Qcabs b <= R ->
  Qcabs (integrate rule (a, b) f - poly_integral c a b)
  <= Q2Qc 2e-15 * (Qcabs (b - a) / 2 * poly_eval (map Qcabs c) R)
  /\ (Qcabs (b - a) / 2 * poly_eval (map Qcabs c) R < Q2Qc 50000 ->
      Qcabs (integrate rule (a, b) f - poly_integral c a b) < Q2Qc 1e-10)
  /\ (forall (order64 j : Z) (rule64 : list (float * float)),
        dict_get integration_points order64 = Some rule64 ->
        (0 <= j <= order64)%Z ->
        match to_Q (integrate rule64 (lit 0, lit 1) (fun x => (x ** j)%py)) with
        | Some v => (Qabs (v - 1 / (inject_Z j + 1)) < 1e-10)%Q
        | None => False
        end).
Proof.
  intros Hrule Hlen Hf Ha Hb.
  assert (Herr : Qcabs (integrate rule (a, b) f - poly_integral c a b)
                 <= Q2Qc 2e-15 * (Qcabs (b - a) / 2 * poly_eval (map Qcabs c) R)).
  { rewrite (integrate_ext rule a b f (poly_eval c)) by done.
    eapply Qcle_trans; [by apply (integrate_poly_error order rule c a b R)|].
    unfold moment_tolerance. rewrite lit_2.
    replace (Qcabs ((b - a) / (1 + 1))) with (Qcabs (b - a) / 2).
    - rewrite Qcmult_comm. apply Qcle_refl.
    - unfold Qcdiv. rewrite Qcabs_Qcmult. f_equal. }
  split; [exact Herr|]. split.
  - intros Hmag. eapply Qcle_lt_trans; [exact Herr|].
    replace (Q2Qc 1e-10) with (Q2Qc 2e-15 * Q2Qc 50000) by (by apply Qc_is_canon).
    apply Qcmult_lt_mono_pos_l; [qc_compare | exact Hmag].
  - intros order64 j rule64 Hrule64 Hj. apply dict_get_In in Hrule64.
    assert (Hcases : In j [0; 1; 2; 3; 4; 5; 6; 7]%Z \/ (7 < j)%Z) by (simpl; lia).
    repeat (destruct Hrule64 as [[= <- <-]|Hrule64]); [ | | | | destruct Hrule64];
      (destruct Hcases as [Hcases|Hcases]; [|lia]);
      repeat (destruct Hcases as [<-|Hcases]; [first [lia | vm_compute; reflexivity]|]);
      destruct Hcases.
Qed.

(** [3 x^2] on [(0, 1)] with the rule of order 3. *)
Lemma integrate_exact_on_polynomials_witness :
  Qcabs (integrate [ (lit (-0.577350269189625), lit 1); (lit 0.577350269189625, lit 1) ]
           (0, 1) (fun x => (lit 3 * x ** 2)%py)
         - poly_integral [0; 0; Q2Qc 3] 0 1)
  <= Q2Qc 2e-15 * (Qcabs (1 - 0) / 2 * poly_eval (map Qcabs [0; 0; Q2Qc 3]) 1).
Proof.
  refine (proj1 (integrate_exact_on_polynomials 3 _ [0; 0; Q2Qc 3] _ 0 1 1 _ _ _ _ _)).
  - reflexivity.
  - simpl. lia.
  - intros x. change ((lit 3 * x ** 2)%py) with (Q2Qc 3 * (x * (x * 1))).
    cbn [poly_eval]. ring.
  - vm_compute. discriminate.
  - vm_compute. discriminate.
Defined.

(** C6 fails on the code: [x^7] on [(9, 10)] with the rule of order 7.  The
    integral is [(10^8 - 9^8)/8 = 7119159.875]; on the tabulated constants
    the quadrature is off by more than [7e-9] in exact arithmetic, and in
    binary64 [integrate] returns [7119159.8749999925], off by more than
    [7e-9] as well. *)
Lemma integrate_inexact_on_modest_polynomial :
  poly_integral [0; 0; 0; 0; 0; 0; 0; 1] (Q2Qc 9) (Q2Qc 10) = Q2Qc 7119159.875
  /\ match dict_get integration_points 7 with
     | Some rule =>
         Q2Qc 7e-9 < Qcabs (integrate rule (Q2Qc 9, Q2Qc 10)
                              (fun x => x * x * x * x * x * x * x)
                            - Q2Qc 7119159.875)
     | None => False
     end
  /\ (rule ← dict_get integration_points 7;
      Some (integrate rule (lit 9, lit 10) (fun x => (x * x * x * x * x * x * x)%py)))
     = Some 7119159.8749999925%float
  /\ match to_Q 7119159.8749999925%float with
     | Some v => (7e-9 < Qabs (v - 7119159.875))%Q
     | None => False
     end.
Proof.
  split; [by apply Qc_is_canon|]. split; [vm_compute; reflexivity|].
  split; vm_compute; reflexivity.
Qed.

(** C7. The linear form of [weak_formulation] is the boundary term
    [d·w(L)] plus the integral of [r·w] over [(0, L)]; when [r] is the zero
    function the quadrature sum is exactly [0] and [l(w, w') = d·w(L)]. *)
Theorem linear_form_boundary_term (rule : list (Qc * Qc)) (L : Qc)
    (p q r : Qc -> Qc) (c d : Qc) (w dw_dx : Qc -> Qc) :
  let l := (weak_formulation (integrate rule) L p q r c d).2 in
  l w dw_dx = d * w L + integrate rule (0, L) (fun x => r x * w x)
  /\ ((forall x, r x = 0) -> l w dw_dx = d * w L).
Proof.
  cbn [weak_formulation snd]. py. split; [done|]. intros Hr.
  rewrite integrate_as_sum.
  rewrite (weighted_sum_ext rule _ (fun _ => 0)).
  - replace (weighted_sum rule (fun _ => 0)) with 0; [ring|].
    induction rule as [|[xi wk] rule IH]; simpl; [done|]. rewrite <- IH. ring.
  - intros xi wk _. rewrite Hr. ring.
Qed.

(** [w(x) = x^2], [L = 10], [d = 1] and [r = 0]: [l(w) = 100]. *)
Lemma linear_form_boundary_term_witness :
  (weak_formulation (integrate [ (lit 0, lit 2) ]) (Q2Qc 10)
     (fun _ => 0) (fun _ => 1) (fun _ => 0) 1 1).2 (fun x => x * x) (fun x => 2 * x)
  = 1 * (Q2Qc 10 * Q2Qc 10).
Proof.
  apply (linear_form_boundary_term [ (lit 0, lit 2) ] (Q2Qc 10)
           (fun _ => 0) (fun _ => 1) (fun _ => 0) 1 1 (fun x => x * x) (fun x => 2 * x)).
  intros x. reflexivity.
Defined.

(** C8. For [k >= 1], [polynomial_basis_function(k)] is the pair of
    [x ↦ x^k] and [x ↦ k·x^(k-1)], and [φ_k(0) = 0] (in binary64 as well);
    [polynomial_basis] lists these pairs for [k = 1, 2, 3, 4], in this
    order. *)
Theorem polynomial_basis_functions (k : Z) (x : Qc) :
  (1 <= k)%Z ->
  (polynomial_basis_function k).1 x = x ^ Z.to_nat k
  /\ (polynomial_basis_function k).2 x = Q2Qc (inject_Z k) * x ^ (Z.to_nat k - 1)
  /\ (polynomial_basis_function k).1 0 = 0
  /\ (polynomial_basis_function (T := float) k).1 (lit 0) = 0%float
  /\ length (polynomial_basis (T := Qc)) = 4%nat
  /\ forall i : nat, (i < 4)%nat ->
       polynomial_basis (T := Qc) !! i
       = Some (polynomial_basis_function (Z.of_nat i + 1)).
Proof.
  intros Hk. cbn [polynomial_basis_function fst snd]. py. unfold Qc_pow.
  assert (Hk0 : (k <? 0)%Z = false) by lia.
  assert (Hk1 : (k - 1 <? 0)%Z = false) by lia.
  rewrite Hk0, Hk1. repeat split.
  - f_equal. f_equal. lia.
  - apply Qcpower_0. lia.
  - destruct k as [|k|k]; [lia| |lia]. vm_compute. reflexivity.
  - intros i Hi. do 4 (destruct i as [|i]; [reflexivity|]). lia.
Qed.

(** [k = 3] at [x = 2]. *)
Lemma polynomial_basis_functions_witness :
  (polynomial_basis_function 3).1 (Q2Qc 2) = Q2Qc 2 ^ 3
  /\ (polynomial_basis_function 3).2 (Q2Qc 2) = Q2Qc (inject_Z 3) * Q2Qc 2 ^ 2.
Proof.
  destruct (polynomial_basis_functions 3 (Q2Qc 2)) as (H1 & H2 & _).
  - vm_compute. discriminate.
  - exact (conj H1 H2).
Defined.

(** C9. In every tabulated rule the abscissas lie in [[-1, 1]], the weights
    are positive, and the weights sum to [2] up to [2e-15], two units of
    the last tabulated decimal place. *)
Theorem tabulated_rules_wellformed (order : Z) (rule : list (Qc * Qc)) :
  dict_get integration_points order = Some rule ->
  Forall (fun '(xi_k, w_k) => - (1) <= xi_k /\ xi_k <= 1 /\ 0 < w_k) rule
  /\ Qcabs (weights_total rule - 2) <= Q2Qc 2e-15.
Proof.
  intros Hrule. apply dict_get_In in Hrule.
  repeat (destruct Hrule as [[= <- <-]|Hrule]); [ | | | | destruct Hrule];
    (split; [repeat constructor; qc_compare | qc_compare]).
Qed.

(** The rule of order 7. *)
Lemma tabulated_rules_wellformed_witness :
  Qcabs (weights_total
           [ (lit (-0.861136311594052), lit 0.347854845137454);
             (lit (-0.339981043584856), lit 0.652145154862545);
             (lit 0.861136311594052, lit 0.347854845137454);
             (lit 0.339981043584856, lit 0.652145154862545) ] - 2) <= Q2Qc 2e-15.
Proof.
  apply (tabulated_rules_wellformed 7). reflexivity.
Defined.

(** C10, as the code has it.  In exact arithmetic: for a rule that is
    symmetric about the origin, as every tabulated rule is, swapping the
    endpoints of the domain negates the result, and for every rule a domain
    [(a, a)] gives [0].  In binary64 the two results of a swap need not
    agree bit for bit, and a domain [(a, a)] with [a] finite gives [+0.0]
    when the weights and the values of [f] at the sample points are finite. *)
Theorem integrate_swapped_domain (rule : list (Qc * Qc)) (f : Qc -> Qc) (a b : Qc) :
  (Permutation (mirror rule) rule ->
   integrate rule (b, a) f = - integrate rule (a, b) f)
  /\ integrate rule (a, a) f = 0
  /\ (forall order : Z,
        dict_get integration_points order = Some rule -> Permutation (mirror rule) rule)
  /\ (forall (rule64 : list (float * float)) (a64 : float) (f64 : float -> float),
        finite a64 ->
        Forall (fun '(xi_k, w_k) =>
                  finite w_k
                  /\ finite (f64 (a64 * (lit 1 - xi_k) / lit 2
                                  + a64 * (lit 1 + xi_k) / lit 2)%py))
               rule64 ->
        integrate rule64 (a64, a64) f64 = 0%float).
Proof.
  split; [|split; [|split]]; cycle 3.
  { intros rule64 a64 f64 Ha Hrule. unfold integrate. apply reference_zero.
    eapply Forall_impl; [|exact Hrule]. intros [xi wk] [Hwk Hf]. split; [done|].
    apply mul_zero_r; [done|]. cbn [sub div float_arith].
    rewrite sub_diag_finite by done. by exists false. }
  - intros Hsym. rewrite (integrate_weighted rule b a), (integrate_weighted rule a b).
    set (g := fun xi => f ((a + b) / Q2Qc 2 + (b - a) / Q2Qc 2 * xi)).
    transitivity (weighted_sum rule (fun xi => g (- xi)) * ((a - b) / Q2Qc 2)).
    + f_equal. apply weighted_sum_ext. intros xi w _. unfold g. f_equal.
      rewrite lit_2. field. done.
    + rewrite <- weighted_sum_mirror, (weighted_sum_perm _ _ g Hsym).
      rewrite lit_2. field. done.
  - rewrite integrate_weighted. rewrite lit_2. field. done.
  - intros order. apply tabulated_rules_symmetric.
Qed.

(** [x^2] on [(1, 0)] and on [(0, 1)] with the rule of order 3. *)
Lemma integrate_swapped_domain_witness :
  integrate [ (lit (-0.577350269189625), lit 1); (lit 0.577350269189625, lit 1) ]
    (1, 0) (fun x => x * x)
  = - integrate [ (lit (-0.577350269189625), lit 1); (lit 0.577350269189625, lit 1) ]
        (0, 1) (fun x => x * x).
Proof.
  apply (integrate_swapped_domain _ (fun x => x * x) 0 1).
  apply (tabulated_rules_symmetric 3). reflexivity.
Defined.

(** C10 fails on the code.  The one-point rule [ξ = 1], [w = 2] evaluates
    [f(x) = x] at the right end of the domain, so it gives [1] on [(0, 1)]
    and [0], not [-1], on [(1, 0)], already in exact arithmetic.  In
    binary64 the tabulated rule of order 7 gives [0.49999999999999956] for
    [f(x) = x] on [(0, 1)] and [-0.4999999999999995] on [(1, 0)]; and on the
    domain [(1, 1)] the rule of order 1 gives a NaN, not [0], for
    [f(x) = x·1e200·1e200], which overflows to an infinity. *)
Lemma integrate_swapped_domain_asymmetric_rule :
  integrate [ (1, Q2Qc 2) ] (0, 1) (fun x => x) = 1
  /\ integrate [ (1, Q2Qc 2) ] (1, 0) (fun x => x) = 0
  /\ integrate [ (1, Q2Qc 2) ] (1, 0) (fun x => x)
     <> - integrate [ (1, Q2Qc 2) ] (0, 1) (fun x : Qc => x)
  /\ (rule ← dict_get integration_points 7;
      Some (integrate rule (lit 0, lit 1) (fun x : float => x),
            integrate rule (lit 1, lit 0) (fun x : float => x)))
     = Some (0.49999999999999956%float, (-0.4999999999999995)%float)
  /\ (-0.4999999999999995)%float <> (- 0.49999999999999956)%float
  /\ Prim2SF (integrate [ (lit 0, lit 2) ] (lit 1, lit 1)
                (fun x : float => (x * 1e200 * 1e200)%float))
     = S754_nan.
Proof.
  assert (H01 : integrate [ (1, Q2Qc 2) ] (0, 1) (fun x => x) = 1) by (by apply Qc_is_canon).
  assert (H10 : integrate [ (1, Q2Qc 2) ] (1, 0) (fun x => x) = 0) by (by apply Qc_is_canon).
  split; [exact H01|]. split; [exact H10|].
  split; [rewrite H01, H10; discriminate|].
  split; [vm_compute; reflexivity|]. split; [|vm_compute; reflexivity].
  intros Heq. apply (f_equal Prim2SF) in Heq. vm_compute in Heq. discriminate.
Qed.
End Properties.

(** ** The quadrature as a functional *)

Section Functional.
Local Open Scope Qc_scope.

Lemma tabulated_wellformed (order : Z) (rule : list (Qc * Qc)) :
  dict_get integration_points order = Some rule -> wellformed_rule rule.
Proof.
  intros Hrule. apply dict_get_In in Hrule.
  repeat (destruct Hrule as [[= <- <-]|Hrule]); [ | | | | destruct Hrule];
    repeat constructor; qc_compare.
Qed.

Lemma integrate_add (rule : list (Qc * Qc)) (a b : Qc) (f g : Qc -> Qc) :
  integrate rule (a, b) (fun x => f x + g x)
  = integrate rule (a, b) f + integrate rule (a, b) g.
Proof. rewrite !integrate_weighted, weighted_sum_add. ring. Qed.

Lemma integrate_scale (rule : list (Qc * Qc)) (a b k : Qc) (f : Qc -> Qc) :
  integrate rule (a, b) (fun x => k * f x) = k * integrate rule (a, b) f.
Proof.
  rewrite !integrate_weighted.
  rewrite (weighted_sum_ext rule _
             (fun xi => f ((a + b) / Q2Qc 2 + (b - a) / Q2Qc 2 * xi) * k)).
  - rewrite weighted_sum_scale. ring.
  - intros xi w _. ring.
Qed.

Lemma integrate_zero (rule : list (Qc * Qc)) (a b : Qc) :
  integrate rule (a, b) (fun _ => 0) = 0.
Proof.
  rewrite integrate_as_sum.
  replace (weighted_sum rule (fun _ => 0)) with 0; [ring|].
  induction rule as [|[xi wk] rule IH]; simpl; [done|]. rewrite <- IH. ring.
Qed.

(** The sample points of a well-formed rule lie in the domain. *)
Lemma sample_inside (a b xi : Qc) :
  a <= b -> - (1) <= xi -> xi <= 1 ->
  a <= a * (1 - xi) / 2 + b * (1 + xi) / 2 /\ a * (1 - xi) / 2 + b * (1 + xi) / 2 <= b.
Proof.
  intros Hab Hlo Hhi.
  assert (H2 : 0 <= / (1 + 1)) by qc_compare.
  assert (Hba : 0 <= b + - a) by (by apply (proj1 (Qcle_minus_iff a b))).
  assert (Hp : 0 <= 1 + xi).
  { apply (proj1 (Qcle_minus_iff (- (1)) xi)) in Hlo.
    replace (1 + xi) with (xi + - - (1)) by ring. done. }
  assert (Hm : 0 <= 1 + - xi) by (by apply (proj1 (Qcle_minus_iff xi 1))).
  split; apply (proj2 (Qcle_minus_iff _ _)).
  - replace (a * (1 - xi) / 2 + b * (1 + xi) / 2 + - a)
      with ((b + - a) * (1 + xi) * / (1 + 1)) by (field; done).
    by repeat apply Qcmult_nonneg_nonneg.
  - replace (b + - (a * (1 - xi) / 2 + b * (1 + xi) / 2))
      with ((b + - a) * (1 + - xi) * / (1 + 1)) by (field; done).
    by repeat apply Qcmult_nonneg_nonneg.
Qed.

Lemma weighted_sum_le (rule : list (Qc * Qc)) (f g : Qc -> Qc) :
  (forall xi w, In (xi, w) rule -> 0 <= w /\ f xi <= g xi) ->
  weighted_sum rule f <= weighted_sum rule g.
Proof.
  induction rule as [|[xi w] rule IH]; intros Hle; simpl; [done|].
  destruct (Hle xi w) as [Hw Hfg]; [by left|].
  apply Qcplus_le_compat.
  - by apply Qcmult_le_mono_nonneg_l.
  - apply IH. intros xi' w' Hin. apply Hle. by right.
Qed.

Lemma integrate_le (rule : list (Qc * Qc)) (a b : Qc) (f g : Qc -> Qc) :
  wellformed_rule rule -> a <= b ->
  (forall x, a <= x -> x <= b -> f x <= g x) ->
  integrate rule (a, b) f <= integrate rule (a, b) g.
Proof.
  intros Hrule Hab Hfg. rewrite !integrate_as_sum.
  apply Qcmult_le_mono_nonneg_r.
  - unfold Qcdiv. apply Qcmult_nonneg_nonneg; [|qc_compare].
    unfold Qcminus. by apply (proj1 (Qcle_minus_iff a b)).
  - apply weighted_sum_le. intros xi w Hin.
    unfold wellformed_rule in Hrule. rewrite Forall_forall in Hrule.
    destruct (Hrule (xi, w) Hin) as (Hlo & Hhi & Hw). split; [done|].
    destruct (sample_inside a b xi Hab Hlo Hhi). by apply Hfg.
Qed.

Lemma weights_total_sum (rule : list (Qc * Qc)) :
  weights_total rule = weighted_sum rule (fun _ => 1).
Proof.
  unfold weights_total. induction rule as [|[xi w] rule IH]; simpl; [done|].
  rewrite IH. ring.
Qed.

(** In exact arithmetic [integrate] is linear in the integrand, for every
    rule and every domain. *)
Theorem integrate_linear (rule : list (Qc * Qc)) (a b alpha beta : Qc) (f g : Qc -> Qc) :
  integrate rule (a, b) (fun x => alpha * f x + beta * g x)
  = alpha * integrate rule (a, b) f + beta * integrate rule (a, b) g.
Proof. by rewrite integrate_add, !integrate_scale. Qed.

(** In exact arithmetic [integrate] follows an affine change of variable
    [x ↦ s·x + t] of the domain, as the integral does: the result on
    [(s·a + t, s·b + t)] is [s] times the result on [(a, b)] for
    [x ↦ f(s·x + t)] (translation with [s = 1], reflection with [s = -1]). *)
Theorem integrate_affine_substitution (rule : list (Qc * Qc)) (a b s t : Qc)
    (f : Qc -> Qc) :
  integrate rule (s * a + t, s * b + t) f
  = s * integrate rule (a, b) (fun x => f (s * x + t)).
Proof.
  rewrite !integrate_weighted.
  rewrite (weighted_sum_ext rule _
             (fun xi => f (s * ((a + b) / Q2Qc 2 + (b - a) / Q2Qc 2 * xi) + t))).
  - rewrite lit_2. field. done.
  - intros xi w _. f_equal. rewrite lit_2. field. done.
Qed.

(** On the reference domain [(-1, 1)] the map [T] is the identity and the
    Jacobian is [1]: in exact arithmetic [integrate] returns what
    [integrate_on_reference_element] returns. *)
Theorem integrate_reference_domain (rule : list (Qc * Qc)) (f : Qc -> Qc) :
  integrate rule (- (1), 1) f = integrate_on_reference_element rule f.
Proof.
  rewrite integrate_as_sum, reference_weighted.
  replace ((1 - - (1)) / 2) with 1 by (field; done).
  rewrite Qcmult_1_r. apply weighted_sum_ext. intros xi w _. f_equal. field. done.
Qed.

(** With points in [[-1, 1]], whatever the weights, and [a <= b],
    [integrate] evaluates [f] inside [[a, b]] only: two functions that agree
    there get the same result. *)
Theorem integrate_reads_domain_only (rule : list (Qc * Qc)) (a b : Qc) (f g : Qc -> Qc) :
  points_in_reference rule -> a <= b ->
  (forall x, a <= x -> x <= b -> f x = g x) ->
  integrate rule (a, b) f = integrate rule (a, b) g.
Proof.
  intros Hrule Hab Hfg. rewrite !integrate_as_sum. f_equal.
  apply weighted_sum_ext. intros xi w Hin.
  unfold points_in_reference in Hrule. rewrite Forall_forall in Hrule.
  destruct (Hrule (xi, w) Hin) as (Hlo & Hhi).
  destruct (sample_inside a b xi Hab Hlo Hhi). by apply Hfg.
Qed.

(** A rule with a negative weight, [ξ = ±1/2] with [w = 3] and [w = -1], on
    [(0, 1)], with [x] and [|x|]. *)
Lemma integrate_reads_domain_only_witness :
  integrate [ (Q2Qc (-0.5), Q2Qc 3); (Q2Qc 0.5, - (1)) ] (0, 1) (fun x => x)
  = integrate [ (Q2Qc (-0.5), Q2Qc 3); (Q2Qc 0.5, - (1)) ] (0, 1) Qcabs.
Proof.
  apply integrate_reads_domain_only.
  - repeat constructor; qc_compare.
  - qc_compare.
  - intros x Hx _. symmetry. by apply Qcabs_pos.
Defined.

(** With points in [[-1, 1]], weights that are not negative and [a <= b],
    [integrate] is monotone in the integrand, and not negative when the
    integrand is not negative on [[a, b]]. *)
Theorem integrate_monotone (rule : list (Qc * Qc)) (a b : Qc) (f g : Qc -> Qc) :
  wellformed_rule rule -> a <= b ->
  ((forall x, a <= x -> x <= b -> f x <= g x) ->
   integrate rule (a, b) f <= integrate rule (a, b) g)
  /\ ((forall x, a <= x -> x <= b -> 0 <= f x) -> 0 <= integrate rule (a, b) f).
Proof.
  intros Hrule Hab. split; intros Hle.
  - by apply integrate_le.
  - rewrite <- (integrate_zero rule a b). by apply integrate_le.
Qed.

(** The tabulated rule of order 3 on [(0, 1)]: [x^3 <= x] there, though not
    on [(-1, 0)]. *)
Lemma integrate_monotone_witness :
  integrate [ (lit (-0.577350269189625), lit 1); (lit 0.577350269189625, lit 1) ]
            (0, 1) (fun x => x * (x * x))
  <= integrate [ (lit (-0.577350269189625), lit 1); (lit 0.577350269189625, lit 1) ]
               (0, 1) (fun x => x).
Proof.
  refine (proj1 (integrate_monotone _ 0 1 (fun x => x * (x * x)) (fun x => x) _ _) _).
  - by apply (tabulated_wellformed 3).
  - qc_compare.
  - intros x Hx0 Hx1.
    assert (Hxx : x * x <= x).
    { apply (Qcle_trans _ (x * 1)); [by apply Qcmult_le_mono_nonneg_l|].
      rewrite Qcmult_1_r. apply Qcle_refl. }
    apply (Qcle_trans _ (x * x)); [by apply Qcmult_le_mono_nonneg_l | exact Hxx].
Defined.

(** A constant [c] is integrated to [c·(b - a)] times half the sum of the
    weights; for a tabulated rule that is within [1e-15] (relative) of
    [c·(b - a)], and equal to it for the orders 1 and 3. *)
Theorem integrate_constant (rule : list (Qc * Qc)) (a b c : Qc) :
  integrate rule (a, b) (fun _ => c) = c * (b - a) * (weights_total rule / 2)
  /\ (forall order : Z, dict_get integration_points order = Some rule ->
        Qcabs (integrate rule (a, b) (fun _ => c) - c * (b - a))
        <= Q2Qc 1e-15 * Qcabs (c * (b - a))
        /\ (In order [1; 3]%Z -> integrate rule (a, b) (fun _ => c) = c * (b - a))).
Proof.
  assert (Hc : integrate rule (a, b) (fun _ => c) = c * (b - a) * (weights_total rule / 2)).
  { rewrite integrate_as_sum, weights_total_sum.
    rewrite (weighted_sum_ext rule _ (fun _ => 1 * c)) by (intros; ring).
    rewrite weighted_sum_scale. field. done. }
  split; [exact Hc|]. intros order Hrule. rewrite Hc.
  replace (c * (b - a) * (weights_total rule / 2) - c * (b - a))
    with ((weights_total rule / 2 - 1) * (c * (b - a))) by (field; done).
  apply dict_get_In in Hrule.
  repeat (destruct Hrule as [[= <- <-]|Hrule]); [ | | | | destruct Hrule].
  all: split;
    [ rewrite Qcabs_Qcmult; apply Qcmult_le_mono_nonneg_r; [apply Qcabs_nonneg | qc_compare]
    | intros Hin; simpl in Hin ].
  all: try (exfalso; lia).
  all: match goal with |- _ * (?k / 2) = _ =>
         replace (k / 2) with 1 by (by apply Qc_is_canon) end; ring.
Qed.

(** The rule tabulated for order 1 is the midpoint rule,
    [(b - a)·f((a + b)/2)]; on [x^2] it is off by [-(b - a)^3 / 12]. *)
Theorem order_1_is_midpoint_rule (rule : list (Qc * Qc)) (a b : Qc) (f : Qc -> Qc) :
  dict_get integration_points 1 = Some rule ->
  integrate rule (a, b) f = (b - a) * f ((a + b) / 2)
  /\ integrate rule (a, b) (fun x => x * x) - poly_integral [0; 0; 1] a b
     = - ((b - a) * (b - a) * (b - a)) / Q2Qc 12.
Proof.
  intros [= <-].
  assert (Hmid : forall g, integrate [(lit 0, lit 2)] (a, b) g = (b - a) * g ((a + b) / 2)).
  { intros g. rewrite integrate_weighted. cbn [weighted_sum]. py. rewrite lit_2.
    replace ((a + b) / (1 + 1) + (b - a) / (1 + 1) * Q2Qc 0) with ((a + b) / 2)
      by (change (Q2Qc 0) with 0; field; done).
    field. done. }
  split; [apply Hmid|]. rewrite Hmid.
  unfold poly_integral. cbn -[Qcmult Qcplus Qcminus Qcdiv Q2Qc Qcopp].
  replace (Q2Qc 12) with ((1 + 1) * (1 + 1) * (1 + 1 + 1)) by (by apply Qc_is_canon).
  field. repeat split; done.
Qed.

Lemma order_1_is_midpoint_rule_witness :
  integrate [ (lit 0, lit 2) ] (0, 1) (fun x => x * x)
  = (1 - 0) * ((0 + 1) / 2 * ((0 + 1) / 2)).
Proof.
  exact (proj1 (order_1_is_midpoint_rule [ (lit 0, lit 2) ] 0 1 (fun x => x * x) eq_refl)).
Defined.

(** For a rule symmetric about the origin, as the tabulated ones are, a
    function that is odd about the midpoint of the domain is integrated to
    [0], the value of its integral. *)
Theorem integrate_odd_about_midpoint (rule : list (Qc * Qc)) (a b : Qc) (f : Qc -> Qc) :
  Permutation (mirror rule) rule ->
  (forall t, f ((a + b) / 2 + t) = - f ((a + b) / 2 - t)) ->
  integrate rule (a, b) f = 0.
Proof.
  intros Hsym Hodd. rewrite integrate_weighted.
  set (g := fun xi => f ((a + b) / Q2Qc 2 + (b - a) / Q2Qc 2 * xi)).
  assert (Hneg : weighted_sum rule g = - weighted_sum rule g).
  { rewrite <- (weighted_sum_perm _ _ g Hsym) at 1. rewrite weighted_sum_mirror.
    rewrite (weighted_sum_ext rule _ (fun xi => g xi * - (1))).
    - rewrite weighted_sum_scale. ring.
    - intros xi w _. unfold g. rewrite lit_2.
      replace ((a + b) / (1 + 1) + (b - a) / (1 + 1) * - xi)
        with ((a + b) / 2 - (b - a) / (1 + 1) * xi) by (field; done).
      specialize (Hodd ((b - a) / (1 + 1) * xi)). rewrite Hodd. ring. }
  assert (Hz : weighted_sum rule g = 0).
  { apply (Qcmult_integral_l (1 + 1)); [done|].
    replace ((1 + 1) * weighted_sum rule g)
      with (weighted_sum rule g + weighted_sum rule g) by ring.
    rewrite Hneg at 1. ring. }
  rewrite Hz. ring.
Qed.

(** The tabulated rule of order 3 and [f(x) = (x - 1/2)^3] on [(0, 1)]. *)
Lemma integrate_odd_about_midpoint_witness :
  integrate [ (lit (-0.577350269189625), lit 1); (lit 0.577350269189625, lit 1) ]
            (0, 1)
            (fun x => (x - (0 + 1) / 2) * ((x - (0 + 1) / 2) * (x - (0 + 1) / 2)))
  = 0.
Proof.
  apply integrate_odd_about_midpoint.
  - by apply (tabulated_rules_symmetric 3).
  - intros t. ring.
Defined.
End Functional.

(** ** What the quadrature reads, in any arithmetic *)

Section Reads.
Context {T : Type} `{Arith T}.
Local Open Scope py_scope.

Lemma fold_left_samples (rule : list (T * T)) (g h : T -> T) (acc : T) :
  (forall xi w, In (xi, w) rule -> g xi = h xi) ->
  fold_left (fun acc '(xi_k, w_k) => acc + w_k * g xi_k) rule acc
  = fold_left (fun acc '(xi_k, w_k) => acc + w_k * h xi_k) rule acc.
Proof.
  revert acc. induction rule as [|[xi w] rule IH]; intros acc Hgh; simpl; [done|].
  rewrite (Hgh xi w) by (by left). apply IH.
  intros xi' w' Hin. apply (Hgh xi' w'). by right.
Qed.

(** In every arithmetic, binary64 included, the result of [integrate]
    depends on [f] through its values at the sample points
    [a(1 - ξ_k)/2 + b(1 + ξ_k)/2] only. *)
Theorem integrate_reads_samples_only (rule : list (T * T)) (a b : T) (f g : T -> T) :
  (forall xi w, In (xi, w) rule ->
     f (a * (lit 1 - xi) / lit 2 + b * (lit 1 + xi) / lit 2)
     = g (a * (lit 1 - xi) / lit 2 + b * (lit 1 + xi) / lit 2)) ->
  integrate rule (a, b) f = integrate rule (a, b) g.
Proof.
  intros Hfg. unfold integrate, integrate_on_reference_element.
  apply fold_left_samples. intros xi w Hin. by rewrite (Hfg xi w).
Qed.

(** A lookup in [integration_points] succeeds for the orders 1, 3, 5 and 7
    and for no other key (Python raises [KeyError]); the rule of order
    [2n - 1] has [n] points. *)
Theorem tabulated_orders (order : Z) :
  match dict_get (integration_points (T := T)) order with
  | Some rule => In order [1; 3; 5; 7]%Z /\ Z.of_nat (length rule) = ((order + 1) / 2)%Z
  | None => ~ In order [1; 3; 5; 7]%Z
  end.
Proof.
  unfold dict_get, integration_points. cbn [find fst].
  destruct (Z.eqb_spec 1 order) as [<-|H1]; [cbn; split; [tauto|done]|].
  destruct (Z.eqb_spec 3 order) as [<-|H3]; [cbn; split; [tauto|done]|].
  destruct (Z.eqb_spec 5 order) as [<-|H5]; [cbn; split; [tauto|done]|].
  destruct (Z.eqb_spec 7 order) as [<-|H7]; [cbn; split; [tauto|done]|].
  cbn. intros Hin. lia.
Qed.
End Reads.

(** The midpoint rule on [(0, 1)] in binary64, with [x] and [|x|]. *)
Lemma integrate_reads_samples_only_witness :
  integrate [ (lit 0, lit 2) ] (lit 0, lit 1) (fun x : float => x)
  = integrate [ (lit 0, lit 2) ] (lit 0, lit 1) PrimFloat.abs.
Proof.
  apply integrate_reads_samples_only.
  intros xi w [[= <- <-]|[]]. vm_compute. reflexivity.
Defined.

(** ** The weak form and the Galerkin system *)

Section WeakForm.
Local Open Scope Qc_scope.
Variables (rule : list (Qc * Qc)) (L : Qc) (p q r : Qc -> Qc) (c d : Qc).

Local Abbreviation a := (weak_formulation (integrate rule) L p q r c d).1.

Lemma a_integrand (u w du_dx dw_dx : Qc -> Qc) :
  a u w du_dx dw_dx
  = integrate rule (0, L) (fun x => p x * u x * w x + q x * du_dx x * dw_dx x).
Proof. reflexivity. Qed.

Lemma a_ext (u u' w w' du du' dw dw' : Qc -> Qc) :
  (forall x, u x = u' x) -> (forall x, w x = w' x) ->
  (forall x, du x = du' x) -> (forall x, dw x = dw' x) ->
  a u w du dw = a u' w' du' dw'.
Proof.
  intros Hu Hw Hdu Hdw. rewrite !a_integrand. apply integrate_ext.
  intros x. by rewrite Hu, Hw, Hdu, Hdw.
Qed.

Lemma a_swap (u w du dw : Qc -> Qc) : a u w du dw = a w u dw du.
Proof. rewrite !a_integrand. apply integrate_ext. intros x. ring. Qed.

Lemma a_linear_l (alpha beta : Qc) (u1 u2 w du1 du2 dw : Qc -> Qc) :
  a (fun x => alpha * u1 x + beta * u2 x) w (fun x => alpha * du1 x + beta * du2 x) dw
  = alpha * a u1 w du1 dw + beta * a u2 w du2 dw.
Proof.
  rewrite !a_integrand, <- !integrate_scale, <- integrate_add.
  apply integrate_ext. intros x. ring.
Qed.

(** [a] of a combination of the basis is the combination of the [a] of the
    basis functions. *)
Lemma a_combination (xs : list Qc) (basis : list dfun) (w dw : Qc -> Qc) :
  a (combination xs (map fst basis)) w (combination xs (map snd basis)) dw
  = dot (map (fun phi_j : dfun => a phi_j.1 w phi_j.2 dw) basis) xs.
Proof.
  revert xs. induction basis as [|[phi dphi] basis IH]; intros [|x xs];
    cbn [combination map dot fst snd].
  1-3: rewrite a_integrand;
       transitivity (integrate rule (0, L) (fun _ => 0));
       [apply integrate_ext; intros t; ring | apply integrate_zero].
  rewrite <- IH.
  rewrite (a_ext _ (fun t => x * phi t + 1 * combination xs (map fst basis) t) w w
                 _ (fun t => x * dphi t + 1 * combination xs (map snd basis) t) dw dw);
    try (intros t; ring); try done.
  rewrite a_linear_l. rewrite Qcmult_comm. ring.
Qed.
End WeakForm.

Section Galerkin.
Local Open Scope Qc_scope.

Lemma Qc_square_nonneg (x : Qc) : 0 <= x * x.
Proof.
  destruct (Qclt_le_dec x 0) as [Hneg|Hpos].
  - replace (x * x) with (- x * - x) by ring.
    assert (0 <= - x).
    { apply Qclt_le_weak, Qcopp_le_compat in Hneg.
      by replace (- 0) with 0 in Hneg by ring. }
    by apply Qcmult_nonneg_nonneg.
  - by apply Qcmult_nonneg_nonneg.
Qed.

(** With [integrate] as the integrator and in exact arithmetic, the form [a]
    of [weak_formulation] is linear in the trial pair [(u, u')] and in the
    test pair [(w, w')], and [l] is linear in [(w, w')].  Neither form
    reads the Dirichlet value [c]. *)
Theorem weak_forms_linear (rule : list (Qc * Qc)) (L : Qc) (p q r : Qc -> Qc)
    (c c' d : Qc) (alpha beta : Qc) (u1 u2 w1 w2 du1 du2 dw1 dw2 : Qc -> Qc) :
  let a := (weak_formulation (integrate rule) L p q r c d).1 in
  let l := (weak_formulation (integrate rule) L p q r c d).2 in
  a (fun x => alpha * u1 x + beta * u2 x) w1 (fun x => alpha * du1 x + beta * du2 x) dw1
  = alpha * a u1 w1 du1 dw1 + beta * a u2 w1 du2 dw1
  /\ a u1 (fun x => alpha * w1 x + beta * w2 x) du1 (fun x => alpha * dw1 x + beta * dw2 x)
     = alpha * a u1 w1 du1 dw1 + beta * a u1 w2 du1 dw2
  /\ l (fun x => alpha * w1 x + beta * w2 x) (fun x => alpha * dw1 x + beta * dw2 x)
     = alpha * l w1 dw1 + beta * l w2 dw2
  /\ weak_formulation (integrate rule) L p q r c' d = (a, l).
Proof.
  intros a l. split; [apply a_linear_l|]. split; [|split; [|done]].
  - unfold a. rewrite a_swap, a_linear_l. by rewrite !(a_swap _ _ _ _ _ _ _ _ u1).
  - unfold l. cbn [weak_formulation snd]. py.
    rewrite (integrate_ext rule 0 L (fun x => r x * (alpha * w1 x + beta * w2 x))
               (fun x => alpha * (r x * w1 x) + beta * (r x * w2 x))) by (intros x; ring).
    rewrite integrate_add, !integrate_scale. ring.
Qed.

(** The system [ritz] assembles is the Galerkin system: for every vector
    [xs], row [i] of [A] times [xs] is [a(u_h, φ_i)] with
    [u_h = Σ_j xs_j φ_j], and [b[i]] is [l(φ_i)].  So [A xs = b] says that
    [a(u_h, φ_i) = l(φ_i)] for every basis function. *)
Theorem ritz_galerkin_equations (rule : list (Qc * Qc)) (L : Qc) (p q r : Qc -> Qc)
    (c d : Qc) (junkA : nat -> nat -> Qc) (junkb : nat -> Qc) (basis : list dfun)
    (A : list (list Qc)) (b xs : list Qc) (i : nat) (phi_i dphi_i : Qc -> Qc) :
  let a := (weak_formulation (integrate rule) L p q r c d).1 in
  let l := (weak_formulation (integrate rule) L p q r c d).2 in
  ritz junkA junkb (weak_formulation (integrate rule) L p q r c d) basis = Some (A, b) ->
  basis !! i = Some (phi_i, dphi_i) ->
  exists (row : list Qc) (b_i : Qc),
    A !! i = Some row /\ b !! i = Some b_i
    /\ dot row xs
       = a (combination xs (map fst basis)) phi_i (combination xs (map snd basis)) dphi_i
    /\ b_i = l phi_i dphi_i.
Proof.
  intros a l Hritz Hi.
  change (weak_formulation (integrate rule) L p q r c d) with (a, l) in Hritz.
  rewrite ritz_closed_form in Hritz. injection Hritz as <- <-.
  eexists _, _. rewrite !lookup_map. unfold dfun in *. rewrite Hi.
  cbn [fmap option_fmap option_map].
  split; [done|]. split; [done|]. split; [|done].
  unfold a. rewrite a_combination. cbn [fst snd]. done.
Qed.

(** The midpoint rule on [(0, 2)], [p = 0], [q = r = 1], [d = 1], the basis
    [x, x^2] and the vector [(3, 5)]; the second row. *)
Lemma ritz_galerkin_equations_witness :
  exists (A : list (list Qc)) (b : list Qc) (row : list Qc) (b_i : Qc),
    ritz (fun _ _ => 0) (fun _ => 0)
         (weak_formulation (integrate [ (lit 0, lit 2) ]) (Q2Qc 2)
            (fun _ => 0) (fun _ => 1) (fun _ => 1) 1 1)
         [ (fun x => x, fun _ => 1); (fun x => x * x, fun x => Q2Qc 2 * x) ]
    = Some (A, b)
    /\ A !! 1%nat = Some row /\ b !! 1%nat = Some b_i
    /\ dot row [Q2Qc 3; Q2Qc 5]
       = (weak_formulation (integrate [ (lit 0, lit 2) ]) (Q2Qc 2)
            (fun _ => 0) (fun _ => 1) (fun _ => 1) 1 1).1
           (combination [Q2Qc 3; Q2Qc 5] [fun x => x; fun x => x * x])
           (fun x => x * x)
           (combination [Q2Qc 3; Q2Qc 5] [fun _ => 1; fun x => Q2Qc 2 * x])
           (fun x => Q2Qc 2 * x).
Proof.
  eexists _, _.
  destruct (ritz_galerkin_equations [ (lit 0, lit 2) ] (Q2Qc 2)
              (fun _ => 0) (fun _ => 1) (fun _ => 1) 1 1 (fun _ _ => 0) (fun _ => 0)
              [ (fun x => x, fun _ => 1); (fun x => x * x, fun x => Q2Qc 2 * x) ]
              _ _ [Q2Qc 3; Q2Qc 5] 1%nat (fun x => x * x) (fun x => Q2Qc 2 * x)
              (ritz_closed_form _ _ _ _ _) eq_refl)
    as (row & b_i & HA & Hb & Hrow & _).
  exists row, b_i. split; [exact (ritz_closed_form _ _ _ _ _)|].
  split; [exact HA|]. split; [exact Hb|]. exact Hrow.
Defined.

(** With points in [[-1, 1]], weights that are not negative, [0 <= L] and
    coefficients [p], [q] that are not negative on [[0, L]], the matrix
    [ritz] assembles is positive semi-definite: [x^T A x] is [a(u_h, u_h)]
    with [u_h = Σ_j xs_j φ_j], and that is not negative. *)
Theorem ritz_matrix_positive_semidefinite (rule : list (Qc * Qc)) (L : Qc)
    (p q r : Qc -> Qc) (c d : Qc) (junkA : nat -> nat -> Qc) (junkb : nat -> Qc)
    (basis : list dfun) (A : list (list Qc)) (b xs : list Qc) :
  let a := (weak_formulation (integrate rule) L p q r c d).1 in
  wellformed_rule rule -> 0 <= L ->
  (forall x, 0 <= x -> x <= L -> 0 <= p x /\ 0 <= q x) ->
  ritz junkA junkb (weak_formulation (integrate rule) L p q r c d) basis = Some (A, b) ->
  quadratic_form A xs
  = a (combination xs (map fst basis)) (combination xs (map fst basis))
      (combination xs (map snd basis)) (combination xs (map snd basis))
  /\ 0 <= quadratic_form A xs.
Proof.
  intros a Hrule HL Hpq Hritz.
  set (l := (weak_formulation (integrate rule) L p q r c d).2).
  change (weak_formulation (integrate rule) L p q r c d) with (a, l) in Hritz.
  rewrite ritz_closed_form in Hritz. injection Hritz as <- <-.
  set (U := combination xs (map fst basis)). set (dU := combination xs (map snd basis)).
  assert (Hq : quadratic_form
                 (map (fun phi_i : dfun =>
                         map (fun phi_j : dfun => a phi_j.1 phi_i.1 phi_j.2 phi_i.2) basis)
                      basis) xs = a U U dU dU).
  { unfold quadratic_form. rewrite map_map.
    rewrite (map_ext _ (fun phi_i : dfun => a phi_i.1 U phi_i.2 dU)).
    - unfold a, U, dU. by rewrite <- a_combination.
    - intros phi_i. unfold a. rewrite <- a_combination. apply a_swap. }
  split; [exact Hq|]. rewrite Hq. unfold a. rewrite a_integrand.
  rewrite <- (integrate_zero rule 0 L) at 1. apply integrate_le; [done..|].
  intros x Hx0 HxL. destruct (Hpq x Hx0 HxL) as [Hp Hq'].
  replace (p x * U x * U x + q x * dU x * dU x)
    with (p x * (U x * U x) + q x * (dU x * dU x)) by ring.
  apply Qcplus_nonneg_nonneg; apply Qcmult_nonneg_nonneg; auto using Qc_square_nonneg.
Qed.

(** The tabulated rule of order 3 on [(0, 2)], [p(x) = x], [q = 1], the
    basis [x, x^2] and the vector [(3, -5)]. *)
Lemma ritz_matrix_positive_semidefinite_witness :
  exists (A : list (list Qc)) (b : list Qc),
    ritz (fun _ _ => 0) (fun _ => 0)
         (weak_formulation
            (integrate [ (lit (-0.577350269189625), lit 1);
                         (lit 0.577350269189625, lit 1) ])
            (Q2Qc 2) (fun x => x) (fun _ => 1) (fun _ => 1) 1 1)
         [ (fun x => x, fun _ => 1); (fun x => x * x, fun x => Q2Qc 2 * x) ]
    = Some (A, b)
    /\ 0 <= quadratic_form A [Q2Qc 3; Q2Qc (-5)].
Proof.
  eexists _, _. split; [exact (ritz_closed_form _ _ _ _ _)|].
  refine (proj2 (ritz_matrix_positive_semidefinite
                   [ (lit (-0.577350269189625), lit 1); (lit 0.577350269189625, lit 1) ]
                   (Q2Qc 2) (fun x => x) (fun _ => 1) (fun _ => 1) 1 1
                   (fun _ _ => 0) (fun _ => 0)
                   [ (fun x => x, fun _ => 1); (fun x => x * x, fun x => Q2Qc 2 * x) ]
                   _ _ [Q2Qc 3; Q2Qc (-5)] _ _ _ (ritz_closed_form _ _ _ _ _))).
  - by apply (tabulated_wellformed 3).
  - qc_compare.
  - intros x Hx _. split; [exact Hx | qc_compare].
Defined.
End Galerkin.

(** ** The reconstructed solution *)

Section Solution.
Local Open Scope Qc_scope.

(** In exact arithmetic [u] is the polynomial
    [1 + x_0 x + x_1 x^2 + x_2 x^3 + x_3 x^4] of the first four entries of
    [x_] (entries beyond the basis are ignored, missing ones count as [0]),
    so [u(0) = 1]: the boundary condition at [0] holds whatever [x_] is. *)
Theorem u_is_polynomial (x_ : list Qc) (x : Qc) :
  u x_ x = poly_eval (1 :: take 4 x_) x /\ u x_ 0 = 1.
Proof.
  assert (Hu : forall t, u x_ t = poly_eval (1 :: take 4 x_) t).
  { intros t. unfold u, polynomial_basis.
    do 4 (destruct x_ as [|? x_]; [unfold_powers; ring|]).
    destruct x_; unfold_powers; ring. }
  split; [apply Hu|]. rewrite Hu. cbn [poly_eval]. ring.
Qed.

(** The system of the example cell is solved, up to a relative residual of
    [1e-12] in each row and in exact arithmetic, by the coefficients
    [(11, -1/2, 0, 0)], for which [u] is [1 + 11 x - x^2 / 2], the solution
    of [-u'' = 1], [u(0) = 1], [u'(10) = 1]. *)
Theorem example_solution (junkA : nat -> nat -> Qc) (junkb : nat -> Qc) :
  exists (A : list (list Qc)) (b : list Qc),
    example junkA junkb = Some (A, b)
    /\ Forall2 (fun row b_i => Qcabs (dot row x_exact - b_i) <= Q2Qc 1e-12 * Qcabs b_i)
               A b
    /\ forall x, u x_exact x = 1 + Q2Qc 11 * x - x * x / 2.
Proof.
  rewrite example_closed_form.
  eexists _, _. split; [vm_compute; reflexivity|]. split.
  - repeat constructor; qc_compare.
  - intros x. unfold u, polynomial_basis, x_exact. unfold_powers.
    replace (Q2Qc (-0.5)) with (- (1) / 2) by (by apply Qc_is_canon).
    field. done.
Qed.
End Solution.

(** ** The recorded outputs, in binary64 *)

(** The model reproduces every output recorded in the notebook for the
    quadrature cells, bit for bit. *)
Lemma recorded_outputs_reproduced :
  map monomial_test [0; 1; 2; 3; 4; 5; 6; 7]%Z = recorded_outputs
  /\ (rule ← dict_get integration_points 3;
      Some (integrate_on_reference_element rule (fun xi => (lit 3 * xi ** 2)%py)))
     = Some 1.9999999999999942%float.
Proof. split; vm_compute; reflexivity. Qed.

(** The binary64 result of the example cell agrees with the recorded output
    to the nine digits that were printed. *)
Lemma example_output_reproduced (junkA : nat -> nat -> float) (junkb : nat -> float) :
  exists (A : list (list float)) (b : list float),
    example junkA junkb = Some (A, b)
    /\ Forall2 (all_close 5e-9) A A_recorded
    /\ all_close 5e-9 b b_recorded.
Proof.
  rewrite example_closed_form.
  eexists _, _. split; [vm_compute; reflexivity|].
  split; repeat constructor; vm_compute; intro; discriminate.
Qed.

(** In binary64 the tabulated rules integrate the monomials of the notebook's
    test, [x^k] on [(0, 1)] with [k] up to the order of the rule, to within
    [1e-10] of [1/(k+1)]. *)
Lemma binary64_exact_on_monomials (order k : Z) (rule : list (float * float)) :
  dict_get integration_points order = Some rule ->
  (0 <= k <= order)%Z ->
  match to_Q (integrate rule (lit 0, lit 1) (fun x => (x ** k)%py)) with
  | Some v => (Qabs (v - 1 / (inject_Z k + 1)) < 1e-10)%Q
  | None => False
  end.
Proof.
  intros Hrule Hk. apply dict_get_In in Hrule.
  assert (Hcases : In k [0; 1; 2; 3; 4; 5; 6; 7]%Z \/ (7 < k)%Z) by (simpl; lia).
  repeat (destruct Hrule as [[= <- <-]|Hrule]); [ | | | | destruct Hrule];
    (destruct Hcases as [Hcases|Hcases]; [|lia]);
    repeat (destruct Hcases as [<-|Hcases]; [first [lia | vm_compute; reflexivity]|]);
    destruct Hcases.
Qed.

(** The rule of order 5 and [x^4] on [(0, 1)]: the binary64 result is within
    [1e-10] of [1/5]. *)
Lemma binary64_exact_on_monomials_witness :
  match to_Q (integrate [ (lit (-0.774596669241483), lit 0.555555555555556);
                          (lit 0.0, lit 0.888888888888889);
                          (lit 0.774596669241483, lit 0.555555555555556) ]
                        (lit 0, lit 1) (fun x : float => (x ** 4)%py)) with
  | Some v => (Qabs (v - 1 / (inject_Z 4 + 1)) < 1e-10)%Q
  | None => False
  end.
Proof. apply (binary64_exact_on_monomials 5 4); [reflexivity | lia]. Defined.

(** In binary64 the matrix of the example is symmetric bit for bit, and with
    [r = 0] the linear form of the example returns [d·φ(L)] bit for bit. *)
Lemma binary64_example_exact :
  (forall junkA junkb, exists (A : list (list float)) (b : list float),
     example junkA junkb = Some (A, b)
     /\ forall i j : nat, entry A i j = entry A j i)
  /\ (rule ← dict_get integration_points 7;
      Some (map (fun phi : dfun =>
                   (weak_formulation (integrate rule) (lit 10)
                      (fun _ => lit 0) (fun _ => lit 1) (fun _ => lit 0)
                      (lit 1) (lit 1)).2 phi.1 phi.2)
                polynomial_basis))
     = Some [10; 100; 1000; 10000]%float.
Proof.
  split; [|vm_compute; reflexivity].
  intros junkA junkb. rewrite example_closed_form.
  eexists _, _. split; [vm_compute; reflexivity|].
  intros i j.
  do 4 (destruct i as [|i]; [do 4 (destruct j as [|j]; [reflexivity|]); reflexivity|]).
  do 4 (destruct j as [|j]; [reflexivity|]); reflexivity.
Qed.

(** In binary64 the matrix need not be symmetric bit for bit: with the
    tabulated rule of order 3, [L = 10], [p = 0.1], [q = r = 1] and the
    basis of the notebook, [A[1][2]] and [A[2][1]] differ in the last place
    ([p·φ_j·φ_i] and [p·φ_i·φ_j] are rounded differently). *)
Theorem binary64_matrix_not_symmetric :
  exists (A : list (list float)) (b : list float),
    (rule ← dict_get integration_points 3;
     ritz (fun _ _ => lit 0) (fun _ => lit 0)
          (weak_formulation (integrate rule) (lit 10)
             (fun _ => lit 0.1) (fun _ => lit 1) (fun _ => lit 1) (lit 1) (lit 1))
          polynomial_basis)
    = Some (A, b)
    /\ entry A 1 2 = Some 30277.777777777701%float
    /\ entry A 2 1 = Some 30277.777777777705%float
    /\ entry A 1 2 <> entry A 2 1.
Proof.
  eexists _, _. split; [vm_compute; reflexivity|].
  split; [reflexivity|]. split; [reflexivity|].
  intros Heq. apply (f_equal (fmap (M := option) Prim2SF)) in Heq.
  vm_compute in Heq. discriminate.
Qed.

(** ** Zero terms, in binary64 *)

(** With [r = 0], finite weights, a finite Jacobian and finite values of
    [w], the quadrature sum is [+0.0] bit for bit, and [l(w)] is [d·w(L)]
    (the sum of [d·w(L)] and [+0.0] is [d·w(L)] itself, unless that is
    [-0.0]). *)
Lemma binary64_zero_source (rule : list (float * float)) (L : float)
    (p q : float -> float) (c d : float) (w dw_dx : float -> float) :
  Forall (fun '(_, w_k) => finite w_k) rule ->
  finite ((L - lit 0) / lit 2)%py ->
  (forall x, finite (w x)) ->
  let l := (weak_formulation (integrate rule) L p q (fun _ => lit 0) c d).2 in
  integrate rule (lit 0, L) (fun x => (lit 0 * w x)%py) = 0%float
  /\ l w dw_dx = (d * w L + 0)%float
  /\ (Prim2SF (d * w L)%float <> S754_zero true -> l w dw_dx = (d * w L)%float).
Proof.
  intros Hrule HJ Hw l.
  assert (Hint : integrate rule (lit 0, L) (fun x => (lit 0 * w x)%py) = 0%float).
  { unfold integrate. apply reference_zero.
    eapply Forall_impl; [|exact Hrule]. intros [xi wk] Hwk. split; [done|].
    apply mul_zero_l; [|done]. apply mul_zero_l; [|done].
    by exists false. }
  split; [exact Hint|]. unfold l. cbn [weak_formulation snd].
  rewrite Hint. split; [done|]. apply add_zero_r.
Qed.

(** On a domain [(a, a)] with [a] finite, finite weights and finite values
    of [f], [integrate] returns [+0.0] bit for bit. *)
Lemma binary64_degenerate_domain (rule : list (float * float)) (a : float)
    (f : float -> float) :
  Forall (fun '(_, w_k) => finite w_k) rule ->
  finite a ->
  (forall x, finite (f x)) ->
  integrate rule (a, a) f = 0%float.
Proof.
  intros Hrule Ha Hf. unfold integrate. apply reference_zero.
  eapply Forall_impl; [|exact Hrule]. intros [xi wk] Hwk. split; [done|].
  apply mul_zero_r; [done|]. cbn [sub div float_arith].
  rewrite sub_diag_finite by done. by exists false.
Qed.

(** On a domain [(a, a)] with [a] finite, [integrate] returns [+0.0] bit
    for bit as soon as the weights and the value of [f] at each sample point
    are finite: [f] may overflow or be undefined elsewhere. *)
Theorem degenerate_domain_bit_exact (rule : list (float * float)) (a : float)
    (f : float -> float) :
  finite a ->
  Forall (fun '(xi_k, w_k) =>
            finite w_k
            /\ finite (f (a * (lit 1 - xi_k) / lit 2 + a * (lit 1 + xi_k) / lit 2)%py))
         rule ->
  integrate rule (a, a) f = 0%float.
Proof.
  intros Ha Hrule. unfold integrate. apply reference_zero.
  eapply Forall_impl; [|exact Hrule]. intros [xi wk] [Hwk Hf]. split; [done|].
  apply mul_zero_r; [done|]. cbn [sub div float_arith].
  rewrite sub_diag_finite by done. by exists false.
Qed.

(** The tabulated rule of order 3 on the domain [(3, 3)], with [f(x) = 1/x]
    (infinite at [0], finite at the samples). *)
Lemma degenerate_domain_bit_exact_witness :
  integrate [ (lit (-0.577350269189625), lit 1); (lit 0.577350269189625, lit 1) ]
            (lit 3, lit 3) (fun x => (lit 1 / x)%py)
  = 0%float.
Proof.
  apply degenerate_domain_bit_exact.
  - vm_compute. exact I.
  - repeat constructor; vm_compute; exact I.
Defined.

(** With [r = 0], a finite Jacobian, finite weights and finite values of
    [w] at the sample points, the quadrature sum of [l] is [+0.0] bit for
    bit and [l(w)] is [d·w(L)] (unless that is [-0.0], which adding [+0.0]
    turns into [+0.0]). *)
Theorem zero_source_bit_exact (rule : list (float * float)) (L : float)
    (p q : float -> float) (c d : float) (w dw_dx : float -> float) :
  finite ((L - lit 0) / lit 2)%py ->
  Forall (fun '(xi_k, w_k) =>
            finite w_k
            /\ finite (w (lit 0 * (lit 1 - xi_k) / lit 2 + L * (lit 1 + xi_k) / lit 2)%py))
         rule ->
  integrate rule (lit 0, L) (fun x => (lit 0 * w x)%py) = 0%float
  /\ (Prim2SF (d * w L)%float <> S754_zero true ->
      (weak_formulation (integrate rule) L p q (fun _ => lit 0) c d).2 w dw_dx
      = (d * w L)%float).
Proof.
  intros HJ Hrule.
  assert (Hint : integrate rule (lit 0, L) (fun x => (lit 0 * w x)%py) = 0%float).
  { unfold integrate. apply reference_zero.
    eapply Forall_impl; [|exact Hrule]. intros [xi wk] [Hwk Hw]. split; [done|].
    apply mul_zero_l; [|done]. apply mul_zero_l; [|done].
    by exists false. }
  split; [exact Hint|]. cbn [weak_formulation snd].
  rewrite Hint. apply add_zero_r.
Qed.

(** The tabulated rule of order 3, [L = 10], [d = 1] and the basis function
    [w(x) = x^2]: [l(w) = 100] bit for bit. *)
Lemma zero_source_bit_exact_witness :
  (weak_formulation
     (integrate [ (lit (-0.577350269189625), lit 1); (lit 0.577350269189625, lit 1) ])
     (lit 10) (fun _ => lit 0) (fun _ => lit 1) (fun _ => lit 0) (lit 1) (lit 1)).2
    (fun x => (x ** 2)%py) (fun x => (lit 2 * x)%py)
  = 100%float.
Proof.
  destruct (zero_source_bit_exact
              [ (lit (-0.577350269189625), lit 1); (lit 0.577350269189625, lit 1) ]
              (lit 10) (fun _ => lit 0) (fun _ => lit 1) (lit 1) (lit 1)
              (fun x => (x ** 2)%py) (fun x => (lit 2 * x)%py)) as [_ Hl].
  - vm_compute. exact I.
  - repeat constructor; vm_compute; exact I.
  - rewrite Hl; [vm_compute; reflexivity | vm_compute; discriminate].
Defined.

Lemma u_fold_zero (l : list (float * dfun)) (x : float) :
  Forall (fun '(xj, (phi_j, _)) => finite xj /\ is_zero (phi_j x)) l ->
  fold_left (fun acc '(xj, (phi_j, dphi_j_dx)) => (acc + xj * phi_j x)%py) l 0%float
  = 0%float.
Proof.
  induction 1 as [|[xj [phi dphi]] l [Hx Hphi] _ IH]; simpl; [done|].
  rewrite add_zero_l; [done|]. by apply mul_zero_r.
Qed.

Lemma zip_zero_terms (x_ : list float) (basis : list dfun) (x : float) :
  Forall finite x_ ->
  Forall (fun phi : dfun => is_zero (phi.1 x)) basis ->
  Forall (fun '(xj, (phi_j, _)) => finite xj /\ is_zero (phi_j x)) (zip x_ basis).
Proof.
  intros Hx. revert basis.
  induction Hx as [|xj x_ Hxj _ IH]; intros basis Hb; [constructor|].
  destruct Hb as [|[phi dphi] basis Hphi Hb]; simpl; [constructor|].
  constructor; [done|]. by apply IH.
Qed.

(** In binary64 too [u(0)] is [1.0] bit for bit, for every vector [x_] of
    finite numbers, of any length: every term of the sum is a zero. *)
Theorem u_at_zero_binary64 (x_ : list float) :
  Forall finite x_ -> u x_ (lit 0) = 1%float.
Proof.
  intros Hx. unfold u. change (lit 0) with 0%float. change (lit 1) with 1%float.
  rewrite u_fold_zero.
  - by apply add_zero_r.
  - apply zip_zero_terms; [done|]. repeat constructor; by exists false.
Qed.

(** The output the notebook records for [np.linalg.solve(A, b)]. *)
Lemma u_at_zero_binary64_witness :
  u [11; -0.5; -8.95283847e-15; 4.47641924e-16]%float (lit 0) = 1%float.
Proof.
  apply u_at_zero_binary64. repeat constructor; vm_compute; exact I.
Defined.
